(** * wolfictl build: the concurrent package-build scheduler

    A shallow embedding of [cli/build.go]: the utility predicates
    ([filterArchs], [pkgver], [logdir]), the index probe, the per-task build
    step ([task.build], [task.buildArch]), the task life cycle
    ([task.maybeStart], [task.start], [task.wait]) as an interleaving
    transition system over goroutine program counters, and the completion
    aggregator at the end of [buildAll]. *)

From Stdlib Require Import Ascii.
From stdpp Require Import gmap strings list fin_maps pretty.

Open Scope string_scope.
Open Scope list_scope.
Open Scope nat_scope.

(** ** Go error values *)

(** [EOpaque] is an error produced by a collaborator (build driver, file
    system, context); [EWrap p e] is [fmt.Errorf(p + "%w", e)]; [EJoin] is
    the non-nil result of [errors.Join]. *)
#[local] Set Warnings "-register-all".
Inductive error : Type :=
| EOpaque (msg : string)
| EWrap (prefix : string) (inner : error)
| EJoin (es : list error).

Definition newline : string := String "010"%char "".
Definition dquote : string := String "034"%char "".

(** The [Error()] method. *)
Fixpoint Error (e : error) : string :=
  match e with
  | EOpaque m => m
  | EWrap p e' => p +:+ Error e'
  | EJoin es =>
      (fix go (l : list error) : string :=
         match l with
         | [] => ""
         | x :: l' =>
             match l' with
             | [] => Error x
             | _ :: _ => Error x +:+ newline +:+ go l'
             end
         end) es
  end.

(** [errors.Join(errs...)]: nil when there is nothing to join. *)
Definition errors_Join (errs : list error) : option error :=
  match errs with
  | [] => None
  | _ :: _ => Some (EJoin errs)
  end.

(** The [%q] verb on a string without characters that need escaping. *)
Definition quote (s : string) : string := dquote +:+ s +:+ dquote.

(** ** Utility predicates *)

(** [config.Package] of the recipe, as far as the scheduler reads it. *)
Record Package := mkPackage {
  Name : string;
  Version : string;
  Epoch : N;
  TargetArchitecture : list string
}.

(** [dag.Configuration]: the recipe with its path and subpackage names. *)
Record Configuration := mkConfiguration {
  Path : string;
  Pkg : Package;
  Subpackages : list string
}.

(** [pkgver]: [fmt.Sprintf("%s-%s-r%d", Name, Version, Epoch)]. *)
Definition pkgver (p : Package) : string :=
  Name p +:+ "-" +:+ Version p +:+ "-r" +:+ pretty (Epoch p).

(** The closure handed to [slices.DeleteFunc] in [filterArchs]: an
    architecture is deleted unless some target equals it. *)
Fixpoint unwanted (targets : list string) (arch : string) : bool :=
  match targets with
  | [] => true
  | want :: rest => if String.eqb arch want then false else unwanted rest arch
  end.

(** [targets[0] == "all"], evaluated only when [targets] is not empty. *)
Definition first_is_all (targets : list string) : bool :=
  match targets with
  | [] => false
  | t0 :: _ => String.eqb t0 "all"
  end.

(** [filterArchs] on values: the contents of the slice it returns. *)
Definition filterArchs (archs targets : list string) : list string :=
  if (length targets =? 0)%nat || first_is_all targets then archs
  else List.filter (λ a, negb (unwanted targets a)) archs.

(** The same routine on explicit slices, to see what it does to the backing
    array of its argument. A slice is a pointer to a backing array and a
    length; the heap maps pointers to arrays. *)
Module Mem.

Record slice := Slice { s_ptr : nat; s_len : nat }.

Definition array (h : gmap nat (list string)) (p : nat) : list string :=
  default [] (h !! p).

Definition contents (h : gmap nat (list string)) (s : slice) : list string :=
  take (s_len s) (array h (s_ptr s)).

(** [slices.Clone]: a fresh backing array holding the elements. *)
Definition Clone (h : gmap nat (list string)) (s : slice)
  : gmap nat (list string) * slice :=
  let p := fresh (dom h) in
  (<[p := contents h s]> h, Slice p (s_len s)).

(** [slices.DeleteFunc]: compacts the kept elements to the front of the
    backing array in place, zeroes the vacated tail, and returns the
    shortened slice over the same array. *)
Definition DeleteFunc (h : gmap nat (list string)) (s : slice)
    (del : string → bool) : gmap nat (list string) * slice :=
  let kept := List.filter (λ x, negb (del x)) (contents h s) in
  let arr := (kept ++ replicate (s_len s - length kept) ""
                   ++ drop (s_len s) (array h (s_ptr s)))%list in
  (<[s_ptr s := arr]> h, Slice (s_ptr s) (length kept)).

Definition filterArchs (h : gmap nat (list string)) (archs : slice)
    (targets : list string) : gmap nat (list string) * slice :=
  let '(h1, cloned) := Clone h archs in
  if (length targets =? 0)%nat || first_is_all targets then (h1, cloned)
  else DeleteFunc h1 cloned (unwanted targets).

(** A slice is valid when its backing array is allocated and long enough. *)
Definition valid (h : gmap nat (list string)) (s : slice) : Prop :=
  ∃ arr, h !! s_ptr s = Some arr ∧ s_len s ≤ length arr.

End Mem.

(** [logdir] and the other path compositions go through [filepath.Join],
    which is taken as a parameter [Join]. *)
Definition logdir (Join : list string → string) (path arch : string) : string :=
  Join [path; arch; "buildlogs"].

(** ** Global configuration and the collaborators *)

(** The [global] struct. [jobs] is the capacity given to both channels
    [jobch] and [donech] by [cmdBuild]; the channels themselves and the
    mutex live in the scheduler state. The field [exists] is spelled
    [exists_]. *)
Record global := mkGlobal {
  dryrun : bool;
  jobs : nat;
  dir : string;
  dst : string;
  pipelineDir : string;
  runner : string;
  archs : list string;
  extraKeys : list string;
  extraRepos : list string;
  generateIndex : bool;
  signingKey : string;
  namespace : string;
  cacheSource : string;
  cacheDir : string;
  outDir : string;
  exists_ : gmap string (gset string)
}.

(** [cmdBuild]: the [--jobs] flag, 0 meaning [runtime.GOMAXPROCS(0)]. *)
Definition cmd_jobs (flag gomaxprocs : Z) : Z :=
  if (flag =? 0)%Z then gomaxprocs else flag.

Inductive Level := Debug | Info | Warn | Err.

(** The options given to [build.New]. *)
Record BuildOpts := mkBuildOpts {
  bo_arch : string;
  bo_config : string;
  bo_pipelineDir : string;
  bo_extraKeys : list string;
  bo_extraRepos : list string;
  bo_signingKey : string;
  bo_runner : string;
  bo_envFile : string;
  bo_namespace : string;
  bo_sourceDir : string;
  bo_cacheSource : string;
  bo_cacheDir : string;
  bo_outDir : string;
  bo_buildDate : string;
  bo_remove : bool
}.

(** What the program does to the outside, in the order it does it, and the
    scheduling events of the tasks. *)
Inductive Event :=
| EvLog (lvl : Level) (msg : string)
| EvFileLog (file msg : string)
| EvStdout (text : string)
| EvCreate (path : string)
| EvMkdirAll (path : string)
| EvNewRunner (name : string)
| EvGitSDE (path : string)
| EvBuildNew (o : BuildOpts)
| EvBuildPackage (o : BuildOpts)
| EvBuildClose (o : BuildOpts) (outer : bool)
| EvIndexNew (indexFile : string) (apkFiles : list string)
| EvGenerateIndex (indexFile : string) (apkFiles : list string)
| EvStarted (pkg : string)
| EvAcquire (pkg : string)
| EvEnterBuild (pkg : string)
| EvRelease (pkg : string)
| EvDone (pkg : string)
| EvSend (pkg : string)
| EvRecv (pkg : string).

(** The places where the code ranges over a Go map, whose iteration order
    is unspecified. *)
Inductive Site :=
| SiteTodos
| SiteStartDeps (pkg : string)
| SiteWaitDeps (pkg : string)
| SiteNeedsBuild (pkg : string)
| SiteNeedsIndex (pkg : string).

(** The file system is the set of paths that exist, as far as the model
    needs one; every operation on it belongs to a collaborator. *)
Record World := mkWorld {
  fs : gset string;
  trace : list Event
}.

(** The collaborators: the apko architecture table, [filepath.Join], the
    order of each map range, the file system calls, the runner, the VCS
    helper, the build driver, the index generator and the HTTP part of the
    index probe. A call returns its error (if any) and the file system it
    leaves. *)
Record Extern := mkExtern {
  ToAPK : string → string;
  Join : list string → string;
  range_keys : Site → list string → list string;
  x_Stat : string → gset string → option error;
  x_IsNotExist : error → bool;
  x_Create : string → gset string → option error * gset string;
  x_MkdirAll : string → gset string → option error * gset string;
  x_ReadFile : string → gset string → error + string;
  x_dockerRunner : gset string → option error * gset string;
  x_gitSDE : string → gset string → error + string;
  x_buildNew : BuildOpts → gset string → option error * gset string;
  x_BuildPackage : BuildOpts → gset string → option error * gset string;
  x_Close : BuildOpts → gset string → option error * gset string;
  x_indexNew : string → list string → gset string → option error * gset string;
  x_GenerateIndex : string → list string → gset string → option error * gset string;
  x_fetch : string → string → error + gset string
}.

(** ** A state monad over the world *)

Definition M (A : Type) : Type := World → A * World.

#[global] Instance M_ret : MRet M := λ A (a : A) (w : World), (a, w).
#[global] Instance M_bind : MBind M :=
  λ A B (k : A → M B) (m : M A) (w : World), let '(a, w') := m w in k a w'.

Definition emit (ev : Event) : M unit :=
  λ w, (tt, mkWorld (fs w) (trace w ++ [ev])).

Definition logf (lvl : Level) (msg : string) : M unit := emit (EvLog lvl msg).

(** A call that may change the file system. *)
Definition call (ev : Event) (op : gset string → option error * gset string)
  : M (option error) :=
  λ w, let '(r, fs') := op (fs w) in (r, mkWorld fs' (trace w ++ [ev])).

(** A call that only reads it. *)
Definition ask {A} (q : gset string → A) : M A := λ w, (q (fs w), w).

(** ** Tasks *)

(** The [task] struct. [deps] holds the keys of the Go map [deps]; the
    [*task] a key stands for is looked up in the task table. The condition
    variable is represented by the [done] flag it guards. *)
Record task := mkTask {
  pkg : string;
  config : Configuration;
  err : option error;
  deps : list string;
  started : bool;
  done : bool;
  skipped : bool
}.

Section Build.

Variable ext : Extern.
Variable cfg : global.

(** [fetchIndex]: no destination repository means an empty published
    set; otherwise the HTTP fetch and parse decide. *)
Definition fetchIndex (dst arch : string) : error + gset string :=
  if String.eqb dst "" then inr ∅ else x_fetch ext dst arch.

(** The index probe of [buildAll]: one [fetchIndex] per architecture, each
    result stored under the APK name of its architecture. [order] is the
    order in which the goroutines get to write; a failing fetch fails
    the whole probe. *)
Fixpoint index_probe (order : list string)
    (acc : gmap string (gset string)) : error + gmap string (gset string) :=
  match order with
  | [] => inr acc
  | arch :: rest =>
      match fetchIndex (dst cfg) arch with
      | inl e => inl e
      | inr exist_ => index_probe rest (<[ToAPK ext arch := exist_]> acc)
      end
  end.

(** [pkgSourceDir] *)
Definition pkgSourceDir (workspaceDir pkgName : string) : M (error + string) :=
  let sdir := Join ext [workspaceDir; pkgName] in
  st ← ask (x_Stat ext sdir);
  match st with
  | None => mret (inr sdir)
  | Some e =>
      if x_IsNotExist ext e then
        r ← call (EvMkdirAll sdir) (x_MkdirAll ext sdir);
        match r with
        | Some e' =>
            mret (inl (EOpaque ("creating source directory " +:+ sdir
                                  +:+ ": " +:+ Error e')))
        | None => mret (inr sdir)
        end
      else mret (inl (EOpaque ("creating source directory: " +:+ Error e)))
  end.

(** [newRunner] *)
Definition newRunner (name : string) : M (option error) :=
  if String.eqb name "docker" then call (EvNewRunner name) (x_dockerRunner ext)
  else if String.eqb name "bubblewrap" then
    _ ← emit (EvNewRunner name); mret None
  else mret (Some (EOpaque ("runner " +:+ quote name +:+ " not supported"))).

(** [logs]: the log file dumped on standard output between group
    markers. *)
Definition logs (fname : string) : M (option error) :=
  _ ← emit (EvStdout ("::group::" +:+ fname +:+ newline));
  r ← ask (x_ReadFile ext fname);
  match r with
  | inl e => mret (Some e)
  | inr text =>
      _ ← emit (EvStdout text);
      _ ← emit (EvStdout ("::endgroup::" +:+ newline));
      mret None
  end.

Definition build_opts (t : task) (arch sdir sde : string) : BuildOpts :=
  {| bo_arch := arch;
     bo_config := Path (config t);
     bo_pipelineDir := pipelineDir cfg;
     bo_extraKeys := extraKeys cfg;
     bo_extraRepos := extraRepos cfg;
     bo_signingKey := signingKey cfg;
     bo_runner := runner cfg;
     bo_envFile := Join ext [dir cfg; "build-" +:+ arch +:+ ".env"];
     bo_namespace := namespace cfg;
     bo_sourceDir := sdir;
     bo_cacheSource := cacheSource cfg;
     bo_cacheDir := cacheDir cfg;
     bo_outDir := outDir cfg;
     bo_buildDate := sde;
     bo_remove := true |}.

(** The deferred [bc.Close]: [ctx'] is what [ctx.Err()] gives when the
    deferred function runs; the driver is closed with the outer context
    when that is an error, and a failure of the close is only logged. *)
Definition close_build (ctx' : option error) (t : task) (o : BuildOpts) : M unit :=
  r ← call (EvBuildClose o (bool_decide (is_Some ctx'))) (x_Close ext o);
  match r with
  | Some e => logf Err ("Closing build " +:+ quote (pkg t) +:+ ": " +:+ Error e)
  | None => mret tt
  end.

(** [task.buildArch]. The context is read twice: [ctx] is what the check
    of the first statement finds, before the log file, the runner and the
    build driver, and [ctx'] what the deferred close finds at the end. *)
Definition buildArch (ctx ctx' : option error) (t : task) (arch : string)
  : M (option error) :=
  match ctx with
  | Some e => mret (Some e)
  | None =>
      let logDir := logdir (Join ext) (outDir cfg) arch in
      let logfile := Join ext [logDir; pkgver (Pkg (config t))] +:+ ".log" in
      r ← call (EvCreate logfile) (x_Create ext logfile);
      match r with
      | Some e => mret (Some (EWrap "creating logfile: " e))
      | None =>
      sd ← pkgSourceDir (dir cfg) (pkg t);
      match sd with
      | inl e => mret (Some e)
      | inr sdir =>
      rn ← newRunner (runner cfg);
      match rn with
      | Some e => mret (Some (EWrap "creating runner: " e))
      | None =>
      _ ← emit (EvGitSDE (Path (config t)));
      ts ← ask (x_gitSDE ext (Path (config t)));
      match ts with
      | inl e => mret (Some (EWrap "finding source date epoch: " e))
      | inr sde =>
      _ ← logf Info ("Building " +:+ pkg t);
      let o := build_opts t arch sdir sde in
      bn ← call (EvBuildNew o) (x_buildNew ext o);
      match bn with
      | Some e => mret (Some e)
      | None =>
      bp ← call (EvBuildPackage o) (x_BuildPackage ext o);
      match bp with
      | Some e =>
          _ ← emit (EvFileLog logfile ("building package: " +:+ Error e));
          lr ← logs logfile;
          _ ← match lr with
              | Some e' => logf Err ("failed to read logs " +:+ quote logfile
                                       +:+ ": " +:+ Error e')
              | None => mret tt
              end;
          _ ← close_build ctx' t o;
          mret (Some (EWrap ("building package (see " +:+ quote logfile
                               +:+ " for logs): ") e))
      | None =>
          _ ← close_build ctx' t o;
          mret None
      end end end end end end
  end.

(** The published-artifact lookup of [build]:
    [_, ok := t.cfg.exists[arch][apkFile]], where a missing [arch] gives
    the nil map. *)
Definition published (arch apkFile : string) : bool :=
  bool_decide (apkFile ∈ default ∅ (exists_ cfg !! arch)).

(** The first loop of [task.build]: one pass over the effective
    architectures filling [needsBuild] and [needsIndex]. *)
Fixpoint scan_archs (t : task) (l : list string)
    (needsBuild needsIndex : gset string) : M (gset string * gset string) :=
  match l with
  | [] => mret (needsBuild, needsIndex)
  | arch :: rest =>
      let apkFile := pkgver (Pkg (config t)) +:+ ".apk" in
      let apkPath := Join ext [outDir cfg; arch; apkFile] in
      if published arch apkFile then
        _ ← logf Debug ("Skipping " +:+ apkFile +:+ ", already indexed");
        scan_archs t rest needsBuild needsIndex
      else
        st ← ask (x_Stat ext apkPath);
        match st with
        | None =>
            _ ← logf Debug ("Skipping " +:+ apkPath +:+ ", already built");
            scan_archs t rest needsBuild ({[arch]} ∪ needsIndex)
        | Some _ =>
            scan_archs t rest ({[arch]} ∪ needsBuild) ({[arch]} ∪ needsIndex)
        end
  end.

(** The second loop: the build driver, one architecture after the other,
    stopping at the first failure. [ctx i] is what read number [i] of
    [ctx.Err()] in this call of [build] gives, [k] the number of reads
    made so far: two for each [buildArch] that has returned nil. *)
Fixpoint build_loop (ctx : nat → option error) (k : nat) (t : task) (l : list string)
  : M (option error) :=
  match l with
  | [] => mret None
  | arch0 :: rest =>
      let arch := ToAPK ext arch0 in
      if dryrun cfg then
        _ ← logf Info ("DRYRUN: would have built " +:+ outDir cfg +:+ "/"
                         +:+ arch +:+ "/" +:+ pkgver (Pkg (config t)) +:+ ".apk");
        build_loop ctx k t rest
      else
        r ← buildArch (ctx k) (ctx (S k)) t arch;
        match r with
        | Some e => mret (Some e)
        | None => build_loop ctx (S (S k)) t rest
        end
  end.

(** The subpackage artifacts that exist, in declaration order. *)
Fixpoint sub_files (t : task) (packageDir : string) (subs : list string)
  : M (list string) :=
  match subs with
  | [] => mret []
  | subName :: rest =>
      let subpkgApk := subName +:+ "-" +:+ Version (Pkg (config t)) +:+ "-r"
                         +:+ pretty (Epoch (Pkg (config t))) +:+ ".apk" in
      let subpkgFileName := Join ext [packageDir; subpkgApk] in
      st ← ask (x_Stat ext subpkgFileName);
      match st with
      | Some e =>
          _ ← logf Warn ("Skipping subpackage " +:+ subpkgFileName
                           +:+ " (was not built): " +:+ Error e);
          sub_files t packageDir rest
      | None =>
          more ← sub_files t packageDir rest;
          mret (subpkgFileName :: more)
      end
  end.

(** The third loop, under the global mutex: the index generator. *)
Fixpoint index_loop (t : task) (l : list string) : M (option error) :=
  match l with
  | [] => mret None
  | arch :: rest =>
      let packageDir := Join ext [outDir cfg; arch] in
      _ ← logf Info ("Generating apk index from packages in " +:+ packageDir);
      let apkFile := pkgver (Pkg (config t)) +:+ ".apk" in
      let apkPath := Join ext [outDir cfg; arch; apkFile] in
      if dryrun cfg then
        _ ← logf Info ("DRYRUN: would have indexed " +:+ apkPath);
        index_loop t rest
      else
        subs ← sub_files t packageDir (Subpackages (config t));
        let apkFiles := apkPath :: subs in
        let indexFile := Join ext [packageDir; "APKINDEX.tar.gz"] in
        r ← call (EvIndexNew indexFile apkFiles) (x_indexNew ext indexFile apkFiles);
        match r with
        | Some e => mret (Some (EWrap "unable to create index: " e))
        | None =>
            g ← call (EvGenerateIndex indexFile apkFiles)
                     (x_GenerateIndex ext indexFile apkFiles);
            match g with
            | Some e => mret (Some (EWrap "unable to generate index: " e))
            | None => index_loop t rest
            end
        end
  end.

(** [task.build]: the returned error and the value left in [t.skipped]. *)
Definition build (ctx : nat → option error) (t : task) : M (option error * bool) :=
  let effective := filterArchs (archs cfg) (TargetArchitecture (Pkg (config t))) in
  '(needsBuild, needsIndex) ← scan_archs t effective ∅ ∅;
  if (size needsBuild =? 0) && (size needsIndex =? 0) then mret (None, true)
  else
    r ← build_loop ctx 0 t (range_keys ext (SiteNeedsBuild (pkg t)) (elements needsBuild));
    match r with
    | Some e => mret (Some e, skipped t)
    | None =>
        if negb (generateIndex cfg) then mret (None, skipped t)
        else
          g ← index_loop t (range_keys ext (SiteNeedsIndex (pkg t)) (elements needsIndex));
          mret (g, skipped t)
    end.

End Build.

(** ** The completion aggregator of [buildAll] *)

(** The loop variables [todos], [errs] and [skipped]. *)
Record Agg := mkAgg {
  a_todos : gset string;
  a_errs : list error;
  a_skipped : nat
}.

Definition progress (k : Z) (n : nat) : string :=
  " (" +:+ pretty k +:+ "/" +:+ pretty n +:+ ")".

Definition skipped_line (m : nat) : string :=
  "Skipped building " +:+ pretty m +:+ " packages".

(** One iteration of [for len(todos) != 0], on the task [t] received from
    [donech]; [count] is [len(todos)] before the loop. *)
Definition ingest (count : nat) (t : task) (a : Agg) : M Agg :=
  let todos' := a_todos a ∖ {[pkg t]} in
  match err t with
  | Some e =>
      let errs' := a_errs a ++ [EWrap ("failed to build " +:+ pkg t +:+ ": ") e] in
      _ ← logf Err ("Failed to build " +:+ pkg t
                      +:+ progress (Z.of_nat (length errs')) count);
      mret (mkAgg todos' errs' (a_skipped a))
  | None =>
      if skipped t then mret (mkAgg todos' (a_errs a) (S (a_skipped a)))
      else
        _ ← (if negb (a_skipped a =? 0)
             then logf Info (skipped_line (a_skipped a)) else mret tt);
        _ ← logf Info ("Finished building " +:+ pkg t
                         +:+ progress (Z.of_nat count
                                        - (Z.of_nat (size todos')
                                           + Z.of_nat (length (a_errs a)))) count);
        mret (mkAgg todos' (a_errs a) 0)
  end.

(** What follows the loop: the pending summary of skipped packages, then
    the cancellation summary or the joined errors. *)
Definition finish (ctx : option error) (a : Agg) : M (option error) :=
  _ ← (if negb (a_skipped a =? 0)
       then logf Info (skipped_line (a_skipped a)) else mret tt);
  match ctx with
  | Some e =>
      mret (Some (EWrap ("failed to build " +:+ pretty (length (a_errs a))
                           +:+ " packages: ") e))
  | None => mret (errors_Join (a_errs a))
  end.

(** The aggregator on a given sequence of completions, for as long as
    [todos] is not empty. *)
Fixpoint drain (count : nat) (ts : list task) (a : Agg) : M Agg :=
  match ts with
  | [] => mret a
  | t :: rest =>
      if size (a_todos a) =? 0 then mret a
      else a' ← ingest count t a; drain count rest a'
  end.

(** The selection at the top of the scheduling part of [buildAll]. *)
Definition select_todos (tasks : gmap string task) (args : list string)
  : error + gset string :=
  if size tasks =? 0 then inl (EOpaque "no packages to build")
  else if length args =? 0 then inr (dom tasks)
  else
    (fix go (l : list string) (todos : gset string) : error + gset string :=
       match l with
       | [] => inr todos
       | arg :: rest =>
           match tasks !! arg with
           | None => inl (EOpaque ("constraint " +:+ quote arg +:+ " does not exist"))
           | Some _ => go rest ({[arg]} ∪ todos)
           end
       end) args ∅.

(** ** The scheduler as a transition system *)

(** Where the goroutine running [task.start] stands: in the loop that
    starts the dependencies, in the loop that waits for them, before the
    send on [jobch], inside [t.build] with the permit, at the deferred
    receive from [jobch], at the deferred block that marks the task done and
    broadcasts, at the send on [donech], and returned. *)
Inductive pc :=
| PStartDeps (rest : list string)
| PWaitDeps (rest : list string)
| PAcquire
| PBuild
| PRelease
| PMarkDone
| PSend
| PExit.

(** Where [buildAll] stands: starting the selected tasks, in the
    aggregation loop, returned. *)
Inductive mainpc :=
| MStart (rest : list string)
| MLoop
| MReturn (r : option error).

Record State := mkState {
  tasks : gmap string task;
  procs : gmap string pc;
  jobch : nat;
  donech : list string;
  ctx : option error;
  world : World;
  mpc : mainpc;
  count : nat;
  agg : Agg
}.

Inductive label :=
| LCancel (cause : error)
| LMain
| LTask (n : string)
| LBuildCancel (n : string) (k : nat) (cause : error).


Definition in_region (p : pc) : bool :=
  match p with
  | PBuild | PRelease => true
  | _ => false
  end.

(** The number of goroutines between the send on [jobch] and the receive
    from it. *)
Definition region_count (s : State) : nat :=
  size (filter (λ kv, in_region kv.2 = true) (procs s)).

Section Scheduler.

Variable ext : Extern.
Variable cfg : global.

Definition set_tasks (s : State) (ts : gmap string task) : State :=
  mkState ts (procs s) (jobch s) (donech s) (ctx s) (world s) (mpc s) (count s) (agg s).
Definition set_pc (s : State) (n : string) (p : pc) : State :=
  mkState (tasks s) (<[n := p]> (procs s)) (jobch s) (donech s) (ctx s)
          (world s) (mpc s) (count s) (agg s).
Definition set_jobch (s : State) (k : nat) : State :=
  mkState (tasks s) (procs s) k (donech s) (ctx s) (world s) (mpc s) (count s) (agg s).
Definition set_donech (s : State) (q : list string) : State :=
  mkState (tasks s) (procs s) (jobch s) q (ctx s) (world s) (mpc s) (count s) (agg s).
Definition set_world (s : State) (w : World) : State :=
  mkState (tasks s) (procs s) (jobch s) (donech s) (ctx s) w (mpc s) (count s) (agg s).
Definition set_mpc (s : State) (m : mainpc) : State :=
  mkState (tasks s) (procs s) (jobch s) (donech s) (ctx s) (world s) m (count s) (agg s).
Definition set_agg (s : State) (a : Agg) : State :=
  mkState (tasks s) (procs s) (jobch s) (donech s) (ctx s) (world s) (mpc s) (count s) a.
Definition set_count (s : State) (c : nat) : State :=
  mkState (tasks s) (procs s) (jobch s) (donech s) (ctx s) (world s) (mpc s) c (agg s).
Definition set_ctx (s : State) (c : option error) : State :=
  mkState (tasks s) (procs s) (jobch s) (donech s) c (world s) (mpc s) (count s) (agg s).
Definition record (s : State) (ev : Event) : State :=
  set_world s (emit ev (world s)).2.

Definition set_started (t : task) : task :=
  mkTask (pkg t) (config t) (err t) (deps t) true (done t) (skipped t).
Definition set_done (t : task) : task :=
  mkTask (pkg t) (config t) (err t) (deps t) (started t) true (skipped t).
Definition set_outcome (t : task) (e : option error) (sk : bool) : task :=
  mkTask (pkg t) (config t) e (deps t) (started t) (done t) sk.

(** [task.maybeStart], atomic under the task's lock: the first call
    spawns the goroutine, later calls do nothing. *)
Definition maybeStart (n : string) (s : State) : option State :=
  t ← tasks s !! n;
  if started t then Some s
  else
    Some (record
            (set_pc (set_tasks s (<[n := set_started t]> (tasks s))) n
                    (PStartDeps (range_keys ext (SiteStartDeps n) (deps t))))
            (EvStarted n)).

Definition waiting_line (t : task) : string :=
  "task " +:+ quote (pkg t) +:+ " waiting on ["
    +:+ String.concat " " (quote <$> deps t) +:+ "]".

(** [t.err = t.build(ctx)] for the task named [n], the reads of the context
    given by [cf]. *)
Definition run_build (cf : nat → option error) (n : string) (t : task) (s : State)
  : State :=
  let '((e, sk), w') := build ext cfg cf t (emit (EvEnterBuild n) (world s)).2 in
  set_pc (set_world (set_tasks s (<[n := set_outcome t e sk]> (tasks s))) w') n PRelease.

(** One step of the goroutine running [t.start] for the task named [n].
    [None] means that the goroutine does not exist, has returned, or is
    blocked: on the latch of a dependency that is not done, on a full
    [jobch], or on a full [donech]. *)
Definition task_step (n : string) (s : State) : option State :=
  t ← tasks s !! n;
  p ← procs s !! n;
  match p with
  | PStartDeps (d :: rest) =>
      s' ← maybeStart d s;
      Some (set_pc s' n (PStartDeps rest))
  | PStartDeps [] =>
      let s' := if negb (length (deps t) =? 0)
                then record s (EvLog Debug (waiting_line t)) else s in
      Some (set_pc s' n (PWaitDeps (range_keys ext (SiteWaitDeps n) (deps t))))
  | PWaitDeps (d :: rest) =>
      dep ← tasks s !! d;
      if done dep then
        match err dep with
        | Some e =>
            Some (set_pc (set_tasks s (<[n := set_outcome t (Some e) (skipped t)]> (tasks s)))
                         n PMarkDone)
        | None => Some (set_pc s n (PWaitDeps rest))
        end
      else None
  | PWaitDeps [] => Some (set_pc s n PAcquire)
  | PAcquire =>
      if jobch s <? jobs cfg
      then Some (record (set_pc (set_jobch s (S (jobch s))) n PBuild) (EvAcquire n))
      else None
  | PBuild => Some (run_build (λ _, ctx s) n t s)
  | PRelease =>
      match jobch s with
      | 0 => None
      | S k => Some (record (set_pc (set_jobch s k) n PMarkDone) (EvRelease n))
      end
  | PMarkDone =>
      Some (record (set_pc (set_tasks s (<[n := set_done t]> (tasks s))) n PSend)
                   (EvDone n))
  | PSend =>
      if length (donech s) <? jobs cfg
      then Some (record (set_pc (set_donech s (donech s ++ [n])) n PExit) (EvSend n))
      else None
  | PExit => None
  end.

(** One step of [buildAll] from the loop that starts the selected tasks
    on. In the aggregation loop it blocks while [donech] is empty. *)
Definition main_step (s : State) : option State :=
  match mpc s with
  | MStart (n :: rest) =>
      s' ← maybeStart n s;
      Some (set_mpc s' (MStart rest))
  | MStart [] =>
      Some (set_mpc (set_count s (size (a_todos (agg s)))) MLoop)
  | MLoop =>
      if size (a_todos (agg s)) =? 0 then
        let '(r, w') := finish (ctx s) (agg s) (world s) in
        Some (set_mpc (set_world s w') (MReturn r))
      else
        match donech s with
        | [] => None
        | n :: q =>
            t ← tasks s !! n;
            let '(a', w') := ingest (count s) t (agg s) (emit (EvRecv n) (world s)).2 in
            Some (set_agg (set_world (set_donech s q) w') a')
        end
  | MReturn _ => None
  end.

(** The context can be cancelled at any moment, once. *)
Definition cancel_step (cause : error) (s : State) : option State :=
  match ctx s with
  | None => Some (set_ctx s (Some cause))
  | Some _ => None
  end.

(** The task named [n] is inside [t.build] when the context is cancelled:
    the first [k] reads of [ctx.Err()] of that call come before the
    cancellation and find the context live, the later ones find it
    cancelled. The effects of the call are placed after the cancellation.
    Several builds can be under way at that moment: the cause is the one
    of the state when an earlier step has recorded the cancellation, and
    [cause] otherwise. *)
Definition build_cancel_step (n : string) (k : nat) (cause : error) (s : State)
  : option State :=
  t ← tasks s !! n;
  p ← procs s !! n;
  match p with
  | PBuild =>
      let e := default cause (ctx s) in
      Some (set_ctx (run_build (λ i, if i <? k then None else Some e) n t s) (Some e))
  | _ => None
  end.

Definition step (l : label) (s : State) : option State :=
  match l with
  | LCancel cause => cancel_step cause s
  | LMain => main_step s
  | LTask n => task_step n s
  | LBuildCancel n k cause => build_cancel_step n k cause s
  end.

Fixpoint run (ls : list label) (s : State) : option State :=
  match ls with
  | [] => Some s
  | l :: rest => s' ← step l s; run rest s'
  end.

(** The state in which [buildAll] reaches its start loop: no task
    started, both channels empty, the context live. *)
Definition init (tasks0 : gmap string task) (todos0 : gset string)
    (fs0 : gset string) : State :=
  mkState tasks0 ∅ 0 [] None (mkWorld fs0 [])
          (MStart (range_keys ext SiteTodos (elements todos0))) 0
          (mkAgg todos0 [] 0).

Inductive reachable (s0 : State) : State → Prop :=
| reach_init : reachable s0 s0
| reach_step s l s' : reachable s0 s → step l s = Some s' → reachable s0 s'.

End Scheduler.

(** ** A concrete environment for the examples *)

(** [types.ParseArchitecture(s).ToAPK()] of apko: the APK names of the
    known architectures, every other string unchanged. *)
Definition apko_ToAPK (s : string) : string :=
  if String.eqb s "386" then "x86"
  else if String.eqb s "amd64" then "x86_64"
  else if String.eqb s "arm64" then "aarch64"
  else if String.eqb s "arm/v6" then "armhf"
  else if String.eqb s "arm/v7" then "armv7"
  else s.

Definition not_exist : error := EOpaque "no such file or directory".
Definition canceled : error := EOpaque "context canceled".

(** Collaborators that always succeed, on a file system where exactly the
    listed paths exist; [fetch] is the remote index and [failing] the
    recipes whose build fails. *)
Definition ext_ok (fetch : string → string → error + gset string)
    (failing : list string) : Extern :=
  {| ToAPK := apko_ToAPK;
     Join := String.concat "/";
     range_keys := λ _ l, l;
     x_Stat := λ p fs, if decide (p ∈ fs) then None else Some not_exist;
     x_IsNotExist := λ _, true;
     x_Create := λ p fs, (None, {[p]} ∪ fs);
     x_MkdirAll := λ p fs, (None, {[p]} ∪ fs);
     x_ReadFile := λ _ _, inr "log";
     x_dockerRunner := λ fs, (None, fs);
     x_gitSDE := λ _ _, inr "2024-01-01T00:00:00Z";
     x_buildNew := λ _ fs, (None, fs);
     x_BuildPackage := λ o fs,
       if bool_decide (bo_config o ∈ failing)
       then (Some (EOpaque "exit status 1"), fs) else (None, fs);
     x_Close := λ _ fs, (None, fs);
     x_indexNew := λ _ _ fs, (None, fs);
     x_GenerateIndex := λ f _ fs, (None, {[f]} ∪ fs);
     x_fetch := fetch |}.

Definition cfg_ex (j : nat) (arches : list string)
    (ex : gmap string (gset string)) : global :=
  {| dryrun := false; jobs := j; dir := "."; dst := ""; pipelineDir := "pipelines";
     runner := "docker"; archs := arches; extraKeys := []; extraRepos := [];
     generateIndex := true; signingKey := "local-melange.rsa"; namespace := "wolfi";
     cacheSource := ""; cacheDir := "./melange-cache/"; outDir := "packages";
     exists_ := ex |}.

(** A fresh task for the recipe [n]-1.0-r0 with the given dependencies. *)
Definition task_ex (n : string) (ds : list string) : task :=
  {| pkg := n;
     config := mkConfiguration (n +:+ ".yaml") (mkPackage n "1.0" 0%N []) [];
     err := None; deps := ds; started := false; done := false; skipped := false |}.

Definition tasks_ex (l : list (string * list string)) : gmap string task :=
  list_to_map ((λ nd, (nd.1, task_ex nd.1 nd.2)) <$> l).

Definition w_empty : World := mkWorld ∅ [].

(** The goroutine of [n] run from its first step to its return. *)
Definition whole (n : string) (ndeps : nat) : list label :=
  replicate (ndeps + 1 + ndeps + 1 + 5) (LTask n).

(** ** Vocabulary of the statements *)

(** [buildAll] stores the result of the index probe in [cfg.exists]. *)
Definition with_exists (cfg : global) (ex : gmap string (gset string)) : global :=
  mkGlobal (dryrun cfg) (jobs cfg) (dir cfg) (dst cfg) (pipelineDir cfg) (runner cfg)
           (archs cfg) (extraKeys cfg) (extraRepos cfg) (generateIndex cfg)
           (signingKey cfg) (namespace cfg) (cacheSource cfg) (cacheDir cfg)
           (outDir cfg) ex.


(** A computation adds to the trace only events that satisfy [p]. *)
Definition only (p : Event → bool) {A} (m : M A) : Prop :=
  ∀ w, ∃ evs, trace (m w).2 = trace w ++ evs ∧ forallb p evs = true.


Definition is_log (ev : Event) : bool :=
  match ev with
  | EvLog _ _ => true
  | _ => false
  end.

(** The events of the scheduler itself. *)
Definition sched_event (ev : Event) : bool :=
  match ev with
  | EvStarted _ | EvAcquire _ | EvEnterBuild _ | EvRelease _
  | EvDone _ | EvSend _ | EvRecv _ => true
  | _ => false
  end.


(** The artifact of a task and where [build] looks for it. *)
Definition apkFile (t : task) : string := pkgver (Pkg (config t)) +:+ ".apk".
Definition apkPath (ext : Extern) (cfg : global) (t : task) (arch : string) : string :=
  Join ext [outDir cfg; arch; apkFile t].

(** Events of the build step, and those among them that do not come from
    [buildArch]. *)
Definition ext_event (ev : Event) : bool := negb (sched_event ev).

(** The example configuration with a destination repository. *)
Definition cfg_remote (j : nat) (arches : list string) (repo : string) : global :=
  {| dryrun := false; jobs := j; dir := "."; dst := repo; pipelineDir := "pipelines";
     runner := "docker"; archs := arches; extraKeys := []; extraRepos := [];
     generateIndex := true; signingKey := "local-melange.rsa"; namespace := "wolfi";
     cacheSource := ""; cacheDir := "./melange-cache/"; outDir := "packages";
     exists_ := ∅ |}.

(** A remote index that declares the artifact of [d]-1.0-r0 for every
    architecture. *)
Definition fetch_d (_ _ : string) : error + gset string := inr {["d-1.0-r0.apk"]}.
Definition fetch_none (_ _ : string) : error + gset string := inr ∅.

(** ** Invariants of the scheduler *)

Definition tr (s : State) : list Event := trace (world s).

(** The tasks sent on and received from [donech] so far, in order. *)
Definition sent (l : list Event) : list string :=
  omap (λ ev, match ev with EvSend n => Some n | _ => None end) l.
Definition received (l : list Event) : list string :=
  omap (λ ev, match ev with EvRecv n => Some n | _ => None end) l.

(** How many times [n] was sent. *)
Definition sends (n : string) (l : list Event) : nat :=
  count_occ String.string_dec (sent l) n.

Definition finishing (p : pc) : bool :=
  match p with
  | PMarkDone | PSend | PExit => true
  | _ => false
  end.

(** The program points at which the task is marked done. *)
Definition latched (p : pc) : bool :=
  match p with
  | PSend | PExit => true
  | _ => false
  end.

(** How far the goroutine of a task has come. *)
Definition pc_rank (p : pc) : nat :=
  match p with
  | PStartDeps _ => 0
  | PWaitDeps _ => 1
  | PAcquire => 2
  | PBuild => 3
  | PRelease => 4
  | PMarkDone => 5
  | PSend => 6
  | PExit => 7
  end.

Definition dep_started (s : State) (d : string) : Prop :=
  ∃ td, tasks s !! d = Some td ∧ started td = true.

(** The dependency is done and its outcome is not an error. *)
Definition dep_ok (s : State) (d : string) : Prop :=
  ∃ td, tasks s !! d = Some td ∧ done td = true ∧ err td = None.

(** The task carries the error of one of its dependencies, which is done. *)
Definition adopted (s : State) (t : task) : Prop :=
  ∃ d td, d ∈ deps t ∧ tasks s !! d = Some td ∧ done td = true
          ∧ is_Some (err td) ∧ err t = err td.

(** What each program point of [start] knows about the dependencies. *)
Definition pc_inv (s : State) (n : string) (t : task) (p : pc) : Prop :=
  match p with
  | PStartDeps rest =>
      (∀ d, d ∈ rest → d ∈ deps t) ∧
      (∀ d, d ∈ deps t → d ∉ rest → dep_started s d)
  | PWaitDeps rest =>
      (∀ d, d ∈ rest → d ∈ deps t) ∧
      (∀ d, d ∈ deps t → dep_started s d) ∧
      (∀ d, d ∈ deps t → d ∉ rest → dep_ok s d)
  | PAcquire | PBuild | PRelease =>
      (∀ d, d ∈ deps t → dep_started s d) ∧
      (∀ d, d ∈ deps t → dep_ok s d)
  | PMarkDone | PSend | PExit =>
      (∀ d, d ∈ deps t → dep_started s d) ∧
      ((∀ d, d ∈ deps t → dep_ok s d) ∨ ((EvAcquire n ∉ tr s) ∧ adopted s t))
  end.

(** The tasks are the vertices of a closed graph: every dependency is a
    task, and a task is filed under its package name. *)
Definition closed_graph (ts : gmap string task) : Prop :=
  ∀ n t, ts !! n = Some t → pkg t = n ∧ ∀ d, d ∈ deps t → is_Some (ts !! d).

(** No task has been touched yet. *)
Definition fresh_tasks (ts : gmap string task) : Prop :=
  ∀ n t, ts !! n = Some t → started t = false ∧ done t = false.

(** Every map range visits exactly the keys of the map. *)
Definition ranges_all (ext : Extern) : Prop :=
  ∀ site l d, d ∈ range_keys ext site l ↔ d ∈ l.

Record Inv (cfg : global) (todos0 : gset string) (s : State) : Prop := mkInv {
  inv_graph : closed_graph (tasks s);
  inv_started : ∀ n t, tasks s !! n = Some t →
                       (started t = true ↔ is_Some (procs s !! n));
  inv_procs : ∀ n, is_Some (procs s !! n) → is_Some (tasks s !! n);
  inv_done : ∀ n t, tasks s !! n = Some t →
                    (done t = true ↔ ∃ p, procs s !! n = Some p ∧ latched p = true);
  inv_jobch : jobch s = region_count s ∧ jobch s ≤ jobs cfg;
  inv_pc : ∀ n t p, tasks s !! n = Some t → procs s !! n = Some p → pc_inv s n t p;
  inv_acq : ∀ n, EvAcquire n ∈ tr s →
                 ∃ p, procs s !! n = Some p ∧ (in_region p || finishing p) = true;
  inv_held : ∀ n p, procs s !! n = Some p → in_region p = true → EvAcquire n ∈ tr s;
  inv_enter : ∀ n, EvEnterBuild n ∈ tr s → EvAcquire n ∈ tr s;
  inv_sent : ∀ n, n ∈ sent (tr s) ↔ procs s !! n = Some PExit;
  inv_sent_nodup : NoDup (sent (tr s));
  inv_done_ev : ∀ n, EvDone n ∈ tr s ↔ ∃ p, procs s !! n = Some p ∧ latched p = true;
  inv_order : ∀ pre post n, tr s = pre ++ EvSend n :: post → EvDone n ∈ pre;
  inv_chan : received (tr s) ++ donech s ≡ₚ sent (tr s);
  inv_todos : a_todos (agg s) = todos0 ∖ list_to_set (received (tr s));
  inv_ret : ∀ r, mpc s = MReturn r → a_todos (agg s) = ∅
}.

(** A decidable form of [closed_graph] and [fresh_tasks], for concrete
    task tables. *)
Definition table_ok (ts : gmap string task) : bool :=
  bool_decide
    (map_Forall (λ n t, pkg t = n ∧ started t = false ∧ done t = false
                        ∧ Forall (λ d, is_Some (ts !! d)) (deps t)) ts).

(** The entry that the aggregator appends to [errs] for a failed task. *)
Definition report (s : State) (n : string) : option error :=
  t ← tasks s !! n;
  e ← err t;
  Some (EWrap ("failed to build " +:+ pkg t +:+ ": ") e).

Definition reported (s : State) (l : list string) : list error := omap (report s) l.

(** [d] is a dependency of [n]. *)
Definition depends (s : State) (n d : string) : Prop :=
  ∃ t, tasks s !! n = Some t ∧ d ∈ deps t.




(** The Info lines of a trace. *)
Definition info_lines (l : list Event) : list string :=
  omap (λ ev, match ev with EvLog Info msg => Some msg | _ => None end) l.

(** ** Task construction in [buildAll] *)

(** [strings.Cut(s, ":")], first result: the part before the first colon,
    the whole string when there is none. *)
Fixpoint before_colon (s : string) : string :=
  match s with
  | EmptyString => EmptyString
  | String c rest => if Ascii.eqb c ":"%char then EmptyString
                     else String c (before_colon rest)
  end.

(** The closure [newTask]: the first configuration loaded for the package,
    which must carry its name; the two panics are returned as errors.
    [Config] stands for [dagCfg.pkgs.Config(pkg, true)]. *)
Definition newTask (Config : string → list Configuration) (pkg0 : string)
  : error + task :=
  match Config pkg0 with
  | [] => inl (EOpaque ("package does not seem to exist: " +:+ pkg0))
  | c :: _ =>
      if String.eqb pkg0 (Name (Pkg c))
      then inr (mkTask pkg0 c None [] false false false)
      else inl (EOpaque ("mismatched package, got " +:+ quote (Name (Pkg c))
                           +:+ ", want " +:+ quote pkg0))
  end.

(** [if tasks[n] == nil { tasks[n] = newTask(n) }] *)
Definition ensure_task (Config : string → list Configuration) (n : string)
    (ts : gmap string task) : error + gmap string task :=
  match ts !! n with
  | Some _ => inr ts
  | None =>
      match newTask Config n with
      | inl e => inl e
      | inr t => inr (<[n := t]> ts)
      end
  end.

(** [tasks[pkg].deps[d] = tasks[d]]: the key [d] enters the dependency
    map of [pkg] once. *)
Definition add_dep (d : string) (t : task) : task :=
  mkTask (pkg t) (config t) (err t)
         (if bool_decide (d ∈ deps t) then deps t else deps t ++ [d])
         (started t) (done t) (skipped t).

(** The innermost loop, over the edges of one adjacency entry. *)
Fixpoint wire_targets (Config : string → list Configuration) (pkg0 : string)
    (targets : list string) (ts : gmap string task) : error + gmap string task :=
  match targets with
  | [] => inr ts
  | target :: rest =>
      let d := before_colon target in
      match ensure_task Config d ts with
      | inl e => inl e
      | inr ts1 => wire_targets Config pkg0 rest (alter (add_dep d) pkg0 ts1)
      end
  end.

(** The loop over the adjacency map [dagCfg.m], whose keys have the form
    name:version; [m] lists its entries in the order of the range. *)
Fixpoint wire_keys (Config : string → list Configuration) (pkg0 : string)
    (m : list (string * list string)) (ts : gmap string task)
  : error + gmap string task :=
  match m with
  | [] => inr ts
  | (k, v) :: rest =>
      if String.prefix (pkg0 +:+ ":") k then
        match wire_targets Config pkg0 v ts with
        | inl e => inl e
        | inr ts1 => wire_keys Config pkg0 rest ts1
        end
      else wire_keys Config pkg0 rest ts
  end.

(** The loop over [dagCfg.g.Packages()]. *)
Fixpoint make_tasks (Config : string → list Configuration) (pkgs : list string)
    (m : list (string * list string)) (ts : gmap string task)
  : error + gmap string task :=
  match pkgs with
  | [] => inr ts
  | pkg0 :: rest =>
      match ensure_task Config pkg0 ts with
      | inl e => inl e
      | inr ts1 =>
          match wire_keys Config pkg0 m ts1 with
          | inl e => inl e
          | inr ts2 => make_tasks Config rest m ts2
          end
      end
  end.

(** ** The log the counters stand for *)

(** Written from the meaning of the two counters, not from the code: a
    failure line carries the number of failures so far, a finished line the
    number of completions so far that are not failures, and the skipped
    packages are summed up before the next finished line. [nerr], [nok] and
    [pending] count what came before [ts]. *)
Fixpoint expected_lines (N nerr nok pending : nat) (ts : list task) : list Event :=
  match ts with
  | [] => []
  | t :: rest =>
      match err t with
      | Some _ =>
          EvLog Err ("Failed to build " +:+ pkg t +:+ progress (Z.of_nat (S nerr)) N)
            :: expected_lines N (S nerr) nok pending rest
      | None =>
          if skipped t then expected_lines N nerr (S nok) (S pending) rest
          else
            (if pending =? 0 then [] else [EvLog Info (skipped_line pending)])
              ++ EvLog Info ("Finished building " +:+ pkg t
                               +:+ progress (Z.of_nat (S nok)) N)
              :: expected_lines N nerr (S nok) 0 rest
      end
  end.


(** The calls of the build driver in a trace, in order. *)
Definition driver_call (ev : Event) : bool :=
  match ev with
  | EvBuildNew _ | EvBuildPackage _ | EvBuildClose _ _ => true
  | _ => false
  end.
Definition driver_calls (l : list Event) : list Event := List.filter driver_call l.
Definition driver_news (l : list Event) : nat :=
  length (List.filter (λ ev, match ev with EvBuildNew _ => true | _ => false end) l).

(** Calls of the index generator. *)
Definition index_event (ev : Event) : bool :=
  match ev with
  | EvIndexNew _ _ | EvGenerateIndex _ _ => true
  | _ => false
  end.

(** The standard output of a trace. *)
Definition stdout_of (l : list Event) : list string :=
  omap (λ ev, match ev with EvStdout s => Some s | _ => None end) l.

(** * Properties *)

(** ** filterArchs *)

Lemma unwanted_elem_of (targets : list string) (a : string) :
  unwanted targets a = negb (bool_decide (a ∈ targets)).
Proof.
  induction targets as [|want rest IH]; cbn [unwanted].
  - rewrite bool_decide_eq_false_2; [done | apply not_elem_of_nil].
  - destruct (String.eqb_spec a want) as [->|Hne].
    + rewrite bool_decide_eq_true_2; [done | apply list_elem_of_here].
    + rewrite IH. f_equal. apply bool_decide_ext.
      rewrite elem_of_cons. intuition congruence.
Qed.

Lemma filterArchs_value (archs targets : list string) :
  filterArchs archs targets =
    if decide (targets = [] ∨ head targets = Some "all") then archs
    else List.filter (λ a, bool_decide (a ∈ targets)) archs.
Proof.
  unfold filterArchs. destruct targets as [|t0 rest].
  - rewrite decide_True by auto. done.
  - cbn [length Nat.eqb first_is_all orb].
    destruct (String.eqb_spec t0 "all") as [->|Hne].
    + rewrite decide_True by auto. done.
    + rewrite decide_False by (intros [?|?]; simplify_eq/=).
      apply List.filter_ext. intros a.
      rewrite unwanted_elem_of. by destruct (bool_decide _).
Qed.

Lemma Clone_contents h (s : Mem.slice) :
  Mem.contents (Mem.Clone h s).1 (Mem.Clone h s).2 = Mem.contents h s.
Proof.
  unfold Mem.Clone, Mem.contents, Mem.array; simpl.
  rewrite lookup_insert_eq; simpl. rewrite take_take. f_equal. lia.
Qed.

(** C7, the claim as it is written, fails when the target list starts with
    "all" and goes on: the guard looks at the first target only. *)
Lemma filterArchs_all_then_more_counterexample :
  ["all"; "x86_64"] ≠ [] ∧ ["all"; "x86_64"] ≠ ["all"] ∧
  filterArchs ["x86_64"; "aarch64"] ["all"; "x86_64"] = ["x86_64"; "aarch64"] ∧
  List.filter (λ x, bool_decide (x ∈ ["all"; "x86_64"])) ["x86_64"; "aarch64"]
    = ["x86_64"] ∧
  filterArchs ["x86_64"; "aarch64"] ["all"; "x86_64"]
    ≠ List.filter (λ x, bool_decide (x ∈ ["all"; "x86_64"])) ["x86_64"; "aarch64"].
Proof. repeat split; try done; vm_compute; congruence. Qed.

(** C7, amended: filterArchs returns a slice over a newly allocated backing
    array and leaves every array that existed before, the one of X among
    them, as it was; the returned elements are all of X when T is empty or
    its first element is "all", and otherwise the elements of X that occur
    in T, in the order of X. *)
Theorem filterArchs_fresh_and_filtered (h : gmap nat (list string))
    (X : Mem.slice) (T : list string) :
  (∀ p, p ∈ dom h → ((Mem.filterArchs h X T).1 !! p) = (h !! p)) ∧
  (Mem.s_ptr (Mem.filterArchs h X T).2 ∉ dom h) ∧
  Mem.contents (Mem.filterArchs h X T).1 (Mem.filterArchs h X T).2
    = filterArchs (Mem.contents h X) T ∧
  filterArchs (Mem.contents h X) T =
    (if decide (T = [] ∨ head T = Some "all") then Mem.contents h X
     else List.filter (λ x, bool_decide (x ∈ T)) (Mem.contents h X)).
Proof.
  pose proof (is_fresh (dom h)) as Hfresh.
  pose proof (Clone_contents h X) as Hclone.
  split_and!; last apply filterArchs_value.
  - intros p Hp. unfold Mem.filterArchs, Mem.DeleteFunc, Mem.Clone in *; simpl in *.
    assert (fresh (dom h) ≠ p) by (intros <-; done).
    destruct (_ || _); simpl; rewrite ?lookup_insert_ne by done; done.
  - unfold Mem.filterArchs, Mem.DeleteFunc, Mem.Clone; simpl.
    destruct (_ || _); simpl; done.
  - unfold Mem.filterArchs, filterArchs.
    destruct (Mem.Clone h X) as [h1 cloned] eqn:Hc; simpl in Hclone.
    destruct (_ || _); simpl; [done|].
    unfold Mem.DeleteFunc; simpl. rewrite Hclone.
    unfold Mem.contents at 1, Mem.array; simpl.
    rewrite lookup_insert_eq; simpl.
    by rewrite take_app_length.
Qed.

(** ** The state monad *)

Section Only.

Variable p : Event → bool.

Lemma only_ret {A} (a : A) : only p (mret a).
Proof. intros w. exists []. by rewrite app_nil_r. Qed.

Lemma only_bind {A B} (m : M A) (k : A → M B) :
  only p m → (∀ a, only p (k a)) → only p (m ≫= k).
Proof.
  intros Hm Hk w. unfold mbind, M_bind.
  destruct (Hm w) as (evs1 & E1 & F1).
  destruct (m w) as [a w1]; simpl in *.
  destruct (Hk a w1) as (evs2 & E2 & F2).
  exists (evs1 ++ evs2). rewrite E2, E1, app_assoc, forallb_app, F1, F2. done.
Qed.

Lemma only_emit (ev : Event) : p ev = true → only p (emit ev).
Proof. intros H w. exists [ev]. simpl. by rewrite H. Qed.

Lemma only_call (ev : Event) op : p ev = true → only p (call ev op).
Proof.
  intros H w. exists [ev]. unfold call. destruct (op (fs w)); simpl. by rewrite H.
Qed.

Lemma only_ask {A} (q : gset string → A) : only p (ask q).
Proof. intros w. exists []. by rewrite app_nil_r. Qed.

End Only.

(** Splits a computation along its binds and matches; what is left are the
    conditions on the events it emits. *)
Ltac only_step :=
  first
    [ apply only_ret
    | apply only_ask
    | apply only_emit
    | apply only_call
    | apply only_bind; [|intros ?]
    | match goal with
      | |- only _ (match ?x with _ => _ end) => destruct x
      | |- only _ (let (_, _) := ?x in _) => destruct x
      end ].
Ltac only_tac := repeat only_step; try done.

(** ** The build step *)

Section BuildProps.

Variable ext : Extern.
Variable cfg : global.

Lemma only_sub_files p t packageDir subs :
  (∀ l msg, p (EvLog l msg) = true) →
  only p (sub_files ext t packageDir subs).
Proof.
  intros Hp. induction subs as [|subName rest IH]; cbn [sub_files]; unfold logf;
    only_tac.
Qed.

Lemma only_index_loop p t l :
  (∀ lv msg, p (EvLog lv msg) = true) →
  (∀ f a, p (EvIndexNew f a) = true) →
  (∀ f a, p (EvGenerateIndex f a) = true) →
  only p (index_loop ext cfg t l).
Proof.
  intros Hlog Hnew Hgen.
  induction l as [|arch rest IH]; cbn [index_loop]; unfold logf; only_tac.
  by apply only_sub_files.
Qed.

Lemma only_scan_archs p t l nb ni :
  (∀ msg, p (EvLog Debug msg) = true) →
  only p (scan_archs ext cfg t l nb ni).
Proof.
  intros Hp. revert nb ni.
  induction l as [|arch rest IH]; intros nb ni; cbn [scan_archs]; unfold logf;
    only_tac.
Qed.

Lemma only_buildArch ctx ctx' t arch :
  only ext_event (buildArch ext cfg ctx ctx' t arch).
Proof.
  unfold buildArch, pkgSourceDir, newRunner, logs, close_build, logf. only_tac.
Qed.

Lemma only_build_loop ctx k t l : only ext_event (build_loop ext cfg ctx k t l).
Proof.
  revert k. induction l as [|arch rest IH]; intros k; cbn [build_loop]; unfold logf;
    only_tac.
  apply only_buildArch.
Qed.

(** When its check finds the context cancelled [buildArch] returns at
    once, so the second loop of [build] only logs. *)
Lemma buildArch_cancelled e ctx' t arch w :
  buildArch ext cfg (Some e) ctx' t arch w = (Some e, w).
Proof. done. Qed.


Lemma only_build ctx t : only ext_event (build ext cfg ctx t).
Proof.
  unfold build. only_tac.
  - by apply only_scan_archs.
  - apply only_build_loop.
  - by apply only_index_loop.
Qed.


(** The first loop reads the file system and fills the two sets. *)
Lemma scan_archs_spec t l nb ni w :
  fs (scan_archs ext cfg t l nb ni w).2 = fs w ∧
  (∀ a, a ∈ (scan_archs ext cfg t l nb ni w).1.1 ↔
        a ∈ nb ∨ (a ∈ l ∧ published cfg a (apkFile t) = false
                  ∧ is_Some (x_Stat ext (apkPath ext cfg t a) (fs w)))) ∧
  (∀ a, a ∈ (scan_archs ext cfg t l nb ni w).1.2 ↔
        a ∈ ni ∨ (a ∈ l ∧ published cfg a (apkFile t) = false)).
Proof.
  revert nb ni w. induction l as [|arch rest IH]; intros nb ni w.
  - cbn. split_and!; [done|..]; intros a; rewrite elem_of_nil; tauto.
  - cbn [scan_archs]. fold (apkFile t). fold (apkPath ext cfg t arch).
    destruct (published cfg arch (apkFile t)) eqn:Hpub.
    + unfold mbind, M_bind, logf, emit.
      destruct (IH nb ni (mkWorld (fs w) (trace w ++
         [EvLog Debug ("Skipping " +:+ apkFile t +:+ ", already indexed")])))
        as (Hfs & Hnb & Hni).
      split_and!; [done|..]; intros a; rewrite ?Hnb, ?Hni, elem_of_cons; cbn [fs];
        intuition (subst; eauto; congruence).
    + unfold mbind, M_bind, ask. cbn beta iota.
      destruct (x_Stat ext (apkPath ext cfg t arch) (fs w)) as [e|] eqn:Hst.
      * destruct (IH ({[arch]} ∪ nb) ({[arch]} ∪ ni) w) as (Hfs & Hnb & Hni).
        split_and!; [done|..]; intros a; rewrite ?Hnb, ?Hni, elem_of_cons,
          elem_of_union, elem_of_singleton;
          intuition (subst; eauto; congruence).
      * unfold logf, emit.
        destruct (IH nb ({[arch]} ∪ ni) (mkWorld (fs w) (trace w ++
           [EvLog Debug ("Skipping " +:+ apkPath ext cfg t arch +:+ ", already built")])))
          as (Hfs & Hnb & Hni).
        split_and!; [done|..]; intros a;
          rewrite ?Hnb, ?Hni, ?elem_of_cons, ?elem_of_union, ?elem_of_singleton;
          cbn [fs]; [|intuition (subst; eauto; congruence)].
        split; [intuition (subst; eauto; congruence)|].
        intros [?|([->|?]&?&Hs)]; eauto.
        rewrite Hst in Hs. by destruct Hs.
Qed.


Lemma index_probe_keys order acc ex k :
  index_probe ext cfg order acc = inr ex →
  is_Some (ex !! k) →
  is_Some (acc !! k) ∨ ∃ a, a ∈ order ∧ k = ToAPK ext a.
Proof.
  revert acc. induction order as [|arch rest IH]; intros acc Hp Hk; cbn in Hp.
  - left. congruence.
  - destruct (fetchIndex ext (dst cfg) arch) as [e|exist_]; [done|].
    destruct (IH _ Hp Hk) as [Hin|(a & Ha & ->)].
    + destruct (decide (ToAPK ext arch = k)) as [<-|Hne].
      * right. exists arch. split; [apply list_elem_of_here | done].
      * left. by rewrite lookup_insert_ne in Hin.
    + right. exists a. split; [by apply list_elem_of_further | done].
Qed.

End BuildProps.

(** C5, original claim refuted: --arch amd64 and a remote index that
    declares the artifact of the task. The set fetched for amd64 holds the
    artifact, yet the first loop of build puts amd64 in needsBuild and in
    needsIndex: the set was filed under x86_64 and the lookup is made
    under amd64. *)
Lemma published_set_missed_counterexample :
  let cfg0 := cfg_remote 2 ["amd64"] "https://packages.wolfi.dev/os" in
  let ext := ext_ok fetch_d [] in
  let t := task_ex "d" [] in
  ∃ ex,
    fetchIndex ext (dst cfg0) "amd64" = inr {[apkFile t]} ∧
    index_probe ext cfg0 ["amd64"] ∅ = inr ex ∧
    "amd64" ∈ filterArchs (archs cfg0) (TargetArchitecture (Pkg (config t))) ∧
    "amd64" ∈ (scan_archs ext (with_exists cfg0 ex) t
                 (filterArchs (archs cfg0) (TargetArchitecture (Pkg (config t))))
                 ∅ ∅ w_empty).1.1 ∧
    "amd64" ∈ (scan_archs ext (with_exists cfg0 ex) t
                 (filterArchs (archs cfg0) (TargetArchitecture (Pkg (config t))))
                 ∅ ∅ w_empty).1.2.
Proof.
  intros cfg0 ext t. exists {["x86_64" := {["d-1.0-r0.apk"]}]}.
  split_and!; [by vm_compute | by vm_compute | ..];
    apply (bool_decide_unpack _); by vm_compute.
Qed.



(** ** The index probe and the lookup of build *)

Lemma apko_ToAPK_idempotent (s : string) : apko_ToAPK (apko_ToAPK s) = apko_ToAPK s.
Proof.
  unfold apko_ToAPK.
  repeat (match goal with
          | |- context [String.eqb ?a ?b] => destruct (String.eqb_spec a b); subst
          end; try done).
Qed.

(** C10: the probe files each published set under the APK name of its
    architecture, and build looks the raw --arch string up. With the
    normalization idempotent, as apko's is, a string that the normalization
    changes is never a key of the map: the lookup misses whatever the
    remote index declares, the architecture is never classified as already
    published, and it always enters needsIndex. Conversely a successful
    lookup happens only at a fixed point of the normalization. *)
Theorem published_only_at_fixed_points (ext : Extern) (cfg : global)
    (order : list string) (ex : gmap string (gset string)) (a : string) :
  (∀ s, ToAPK ext (ToAPK ext s) = ToAPK ext s) →
  index_probe ext cfg order ∅ = inr ex →
  (ToAPK ext a ≠ a →
     exists_ (with_exists cfg ex) !! a = None ∧
     (∀ apk, published (with_exists cfg ex) a apk = false) ∧
     (∀ t w, a ∈ filterArchs (archs cfg) (TargetArchitecture (Pkg (config t))) →
        a ∈ (scan_archs ext (with_exists cfg ex) t
               (filterArchs (archs cfg) (TargetArchitecture (Pkg (config t))))
               ∅ ∅ w).1.2)) ∧
  (∀ apk, published (with_exists cfg ex) a apk = true → ToAPK ext a = a).
Proof.
  intros Hidem Hprobe.
  assert (Hmiss : ToAPK ext a ≠ a → ex !! a = None).
  { intros Hne. destruct (ex !! a) as [v|] eqn:Hl; [|done].
    destruct (index_probe_keys ext cfg order ∅ ex a Hprobe) as [Hin|(b & _ & Hb)].
    - by rewrite Hl.
    - rewrite lookup_empty in Hin. by destruct Hin.
    - exfalso. apply Hne. rewrite Hb. apply Hidem. }
  assert (Hpub : ToAPK ext a ≠ a → ∀ apk, published (with_exists cfg ex) a apk = false).
  { intros Hne apk. unfold published; cbn. rewrite (Hmiss Hne); cbn.
    apply bool_decide_eq_false_2, not_elem_of_empty. }
  split.
  - intros Hne. split_and!; [by apply Hmiss | by apply Hpub |].
    intros t w Hin.
    destruct (scan_archs_spec ext (with_exists cfg ex) t
                (filterArchs (archs cfg) (TargetArchitecture (Pkg (config t))))
                ∅ ∅ w) as (_ & _ & Hni).
    apply Hni. right. split; [done | by apply Hpub].
  - intros apk Htrue. destruct (decide (ToAPK ext a = a)) as [|Hne]; [done|].
    rewrite (Hpub Hne) in Htrue. done.
Qed.

(** An instance: --arch amd64, whose APK name is x86_64, with a remote
    index that declares the artifact. *)
Lemma published_only_at_fixed_points_witness :
  index_probe (ext_ok fetch_d []) (cfg_remote 2 ["amd64"] "https://packages.wolfi.dev/os")
              ["amd64"] ∅
    = inr {["x86_64" := {["d-1.0-r0.apk"]}]} ∧
  published (with_exists (cfg_remote 2 ["amd64"] "https://packages.wolfi.dev/os")
                         {["x86_64" := {["d-1.0-r0.apk"]}]})
            "amd64" "d-1.0-r0.apk" = false.
Proof.
  split; [by vm_compute|].
  apply (published_only_at_fixed_points (ext_ok fetch_d [])
           (cfg_remote 2 ["amd64"] "https://packages.wolfi.dev/os") ["amd64"]
           {["x86_64" := {["d-1.0-r0.apk"]}]} "amd64").
  - exact apko_ToAPK_idempotent.
  - by vm_compute.
  - by vm_compute.
Defined.

(** ** The scheduler *)

Section SchedulerProps.

Variable ext : Extern.
Variable cfg : global.
Variable todos0 : gset string.

Hypothesis Hranges : ranges_all ext.

Lemma maybeStart_cases d s s1 :
  maybeStart ext d s = Some s1 →
  ∃ td, tasks s !! d = Some td ∧
    ((started td = true ∧ s1 = s) ∨
     (started td = false ∧
      s1 = record (set_pc (set_tasks s (<[d := set_started td]> (tasks s))) d
                          (PStartDeps (range_keys ext (SiteStartDeps d) (deps td))))
                  (EvStarted d))).
Proof.
  unfold maybeStart. intros H.
  destruct (tasks s !! d) as [td|]; [|done]. cbn in H.
  exists td. split; [done|].
  destruct (started td); simplify_eq; auto.
Qed.

(** Case analysis on a step: one goal per transition of the system. *)
Ltac step_cases H :=
  match type of H with
  | step _ _ ?l ?s = Some _ =>
      destruct l as [cause| |n|n k cause]; cbn [step] in H;
      [ unfold cancel_step in H; destruct (ctx s) eqn:Hctx; simplify_eq
      | unfold main_step in H;
        destruct (mpc s) as [[|n0 rest]| |r] eqn:Hmpc;
        [ simplify_eq
        | apply bind_Some in H as (s1 & Hms & H); simplify_eq;
          apply maybeStart_cases in Hms as (td & Htd & [[Hst ->]|[Hst ->]])
        | destruct (size (a_todos (agg s)) =? 0) eqn:Hsz;
          [ destruct (finish (ctx s) (agg s) (world s)) as [r w'] eqn:Hfin; simplify_eq
          | destruct (donech s) as [|n0 q] eqn:Hq; [done|];
            apply bind_Some in H as (t0 & Ht0 & H);
            destruct (ingest (count s) t0 (agg s) (emit (EvRecv n0) (world s)).2)
              as [a' w'] eqn:Hing; simplify_eq ]
        | done ]
      | unfold task_step in H;
        apply bind_Some in H as (t & Ht & H);
        apply bind_Some in H as (p & Hp & H);
        destruct p as [[|d rest]|[|d rest]| | | | | |];
        [ destruct (negb (length (deps t) =? 0)) eqn:Hnodeps; simplify_eq
        | apply bind_Some in H as (s1 & Hms & H); simplify_eq;
          apply maybeStart_cases in Hms as (td & Htd & [[Hst ->]|[Hst ->]])
        | simplify_eq
        | apply bind_Some in H as (dep & Hdep & H);
          destruct (done dep) eqn:Hdone; [|done];
          destruct (err dep) as [e|] eqn:Herr; simplify_eq
        | destruct (jobch s <? jobs cfg) eqn:Hfull; simplify_eq
        | unfold run_build in H;
          destruct (build ext cfg (λ _, ctx s) t (emit (EvEnterBuild n) (world s)).2)
            as [[e sk] w'] eqn:Hb; simplify_eq
        | destruct (jobch s) as [|k] eqn:Hj; simplify_eq
        | simplify_eq
        | destruct (length (donech s) <? jobs cfg) eqn:Hroom; simplify_eq
        | done ]
      | unfold build_cancel_step in H;
        apply bind_Some in H as (t & Ht & H);
        apply bind_Some in H as (p & Hp & H);
        destruct p; try done;
        unfold run_build in H;
        destruct (build ext cfg (λ i, if i <? k then None
                                      else Some (default cause (ctx s))) t
                        (emit (EvEnterBuild n) (world s)).2)
          as [[e sk] w'] eqn:Hb; simplify_eq ]
  end.

Lemma closed_graph_update ts n t t' :
  closed_graph ts → ts !! n = Some t → pkg t' = pkg t → deps t' = deps t →
  closed_graph (<[n := t']> ts).
Proof.
  intros Hg Hn Hpkg Hdeps m tm Hm.
  assert (∀ d, is_Some (ts !! d) → is_Some (<[n := t']> ts !! d)) as Hmono.
  { intros d Hd. destruct (decide (n = d)) as [->|Hne].
    - rewrite lookup_insert_eq. eauto.
    - by rewrite lookup_insert_ne. }
  destruct (decide (n = m)) as [->|Hne].
  - rewrite lookup_insert_eq in Hm. simplify_eq.
    destruct (Hg _ _ Hn) as [? Hd]. rewrite Hpkg, Hdeps. split; [done|]. eauto.
  - rewrite lookup_insert_ne in Hm by done.
    destruct (Hg _ _ Hm) as [? Hd]. split; [done|]. eauto.
Qed.

Lemma step_graph s l s' :
  Inv cfg todos0 s → step ext cfg l s = Some s' → closed_graph (tasks s').
Proof.
  intros HI H. pose proof (inv_graph _ _ _ HI) as Hg.
  step_cases H; cbn; try done.
  all: eapply closed_graph_update; eauto; done.
Qed.

(** Looks a key up in a map built by inserts, by cases on the keys. *)
Ltac map_cases :=
  repeat (rewrite lookup_insert in * );
  repeat (case_decide; simplify_eq);
  cbn in *.

Lemma step_started s l s' :
  Inv cfg todos0 s → step ext cfg l s = Some s' →
  ∀ m tm, tasks s' !! m = Some tm → (started tm = true ↔ is_Some (procs s' !! m)).
Proof.
  intros HI H. pose proof (inv_started _ _ _ HI) as Hs.
  step_cases H; cbn; try done; intros m tm Hm; map_cases.
  all: try (by apply Hs).
  all: split; [eauto|]; intros _; first [done | apply (Hs _ _ Ht); rewrite Hp; eauto].
Qed.

Lemma step_procs s l s' :
  Inv cfg todos0 s → step ext cfg l s = Some s' →
  ∀ m, is_Some (procs s' !! m) → is_Some (tasks s' !! m).
Proof.
  intros HI H. pose proof (inv_procs _ _ _ HI) as Hs.
  step_cases H; cbn; try done; intros m Hm; map_cases; eauto.
Qed.

Lemma idle_no_proc s n t :
  Inv cfg todos0 s → tasks s !! n = Some t → started t = false → procs s !! n = None.
Proof.
  intros HI Ht Hst. destruct (procs s !! n) as [p|] eqn:Hp; [|done].
  assert (started t = true) by (apply (inv_started _ _ _ HI n t Ht); eauto).
  congruence.
Qed.

Lemma step_done s l s' :
  Inv cfg todos0 s → step ext cfg l s = Some s' →
  ∀ m tm, tasks s' !! m = Some tm →
    (done tm = true ↔ ∃ p, procs s' !! m = Some p ∧ latched p = true).
Proof.
  intros HI H. pose proof (inv_done _ _ _ HI) as Hs.
  step_cases H; cbn; try done; intros m tm Hm; map_cases.
  all: try (by apply Hs).
  all: try (pose proof (idle_no_proc _ _ _ HI Htd Hst) as Hnone).
  all: split;
    [ intros Hdn; try (eexists; split; [done|]; done);
      match goal with
      | Ht : tasks _ !! ?k = Some ?t, Hdn : done ?t = true |- _ =>
          let Hx := fresh in
          pose proof (proj1 (Hs _ _ Ht) Hdn) as (? & Hx & ?);
          simplify_eq; try done; eauto
      end
    | intros (p' & ? & Hl); simplify_eq; cbn in Hl; try done;
      apply (Hs _ _ Ht); eauto ].
Qed.

Lemma region_size_insert (P : gmap string pc) n p p' :
  P !! n = Some p →
  size (filter (λ kv : string * pc, in_region kv.2 = true) (<[n := p']> P))
    + (if in_region p then 1 else 0)
  = size (filter (λ kv : string * pc, in_region kv.2 = true) P)
    + (if in_region p' then 1 else 0).
Proof.
  intros Hp.
  set (F := filter (λ kv : string * pc, in_region kv.2 = true) P).
  assert (HF : F !! n = if in_region p then Some p else None).
  { destruct (in_region p) eqn:Hr.
    - by apply map_lookup_filter_Some.
    - apply map_lookup_filter_None. right. intros ? ?; cbn. congruence. }
  rewrite map_filter_insert. cbn. fold F.
  destruct (in_region p') eqn:Hr'.
  - rewrite decide_True by done. rewrite map_size_insert, HF.
    destruct (in_region p); cbn; lia.
  - rewrite decide_False by congruence. rewrite map_filter_delete. fold F.
    destruct (in_region p) eqn:Hr.
    + pose proof (map_size_delete n F) as Hd. rewrite HF in Hd. cbn in Hd.
      assert (size F ≠ 0).
      { intros H0. apply map_size_empty_iff in H0. rewrite H0, lookup_empty in HF. done. }
      lia.
    + rewrite delete_id by done. lia.
Qed.

Lemma region_size_fresh (P : gmap string pc) n p' :
  P !! n = None → in_region p' = false →
  size (filter (λ kv : string * pc, in_region kv.2 = true) (<[n := p']> P))
  = size (filter (λ kv : string * pc, in_region kv.2 = true) P).
Proof.
  intros Hp Hr.
  rewrite map_filter_insert_not'; [done | cbn; congruence | intros y; congruence].
Qed.

Lemma step_jobch s l s' :
  Inv cfg todos0 s → step ext cfg l s = Some s' →
  jobch s' = region_count s' ∧ jobch s' ≤ jobs cfg.
Proof.
  intros HI H. destruct (inv_jobch _ _ _ HI) as [Hj1 Hj2].
  unfold region_count in *.
  step_cases H; cbn; try done.
  all: try (pose proof (idle_no_proc _ _ _ HI Htd Hst) as Hnone).
  all: try (apply Nat.ltb_lt in Hfull).
  all: try match goal with
       | Hp : procs _ !! ?n = Some ?p0 |- context [filter _ (<[?n := ?q]> ?P)] =>
           let Hl := fresh in
           assert (Hl : P !! n = Some p0)
             by (first [exact Hp | rewrite lookup_insert_ne; [exact Hp | congruence]]);
           pose proof (region_size_insert P n p0 q Hl) as Hrc; cbn in Hrc
       end.
  all: try (rewrite (region_size_fresh (procs s)) in * by done).
  all: lia.
Qed.

Lemma build_trace c t w e sk w' :
  build ext cfg c t w = ((e, sk), w') →
  ∃ evs, trace w' = trace w ++ evs ∧ forallb ext_event evs = true.
Proof.
  intros Hb. destruct (only_build ext cfg c t w) as (evs & Htr & Hev).
  rewrite Hb in Htr. eauto.
Qed.

Lemma only_ingest c t a : only is_log (ingest c t a).
Proof. unfold ingest, logf. only_tac. Qed.

Lemma only_finish c a : only is_log (finish c a).
Proof. unfold finish, logf. only_tac. Qed.

Lemma is_log_ext evs : forallb is_log evs = true → forallb ext_event evs = true.
Proof.
  rewrite !forallb_forall. intros H ev Hin. specialize (H ev Hin).
  by destruct ev.
Qed.

Lemma ingest_trace c t a w a' w' :
  ingest c t a w = (a', w') →
  ∃ evs, trace w' = trace w ++ evs ∧ forallb ext_event evs = true.
Proof.
  intros Hb. destruct (only_ingest c t a w) as (evs & Htr & Hev).
  rewrite Hb in Htr. eauto using is_log_ext.
Qed.

Lemma finish_trace c a w r w' :
  finish c a w = (r, w') →
  ∃ evs, trace w' = trace w ++ evs ∧ forallb ext_event evs = true.
Proof.
  intros Hb. destruct (only_finish c a w) as (evs & Htr & Hev).
  rewrite Hb in Htr. eauto using is_log_ext.
Qed.

Lemma ext_not_sched evs ev :
  forallb ext_event evs = true → sched_event ev = true → ev ∉ evs.
Proof.
  rewrite forallb_forall. intros H Hs Hin. apply list_elem_of_In in Hin.
  specialize (H ev Hin). unfold ext_event in H. rewrite Hs in H. done.
Qed.

Lemma ext_sent evs : forallb ext_event evs = true → sent evs = [].
Proof.
  induction evs as [|ev evs IH]; [done|]. cbn [forallb].
  intros [H1 H2]%andb_true_iff. unfold sent in *. cbn. rewrite (IH H2).
  by destruct ev.
Qed.

Lemma ext_received evs : forallb ext_event evs = true → received evs = [].
Proof.
  induction evs as [|ev evs IH]; [done|]. cbn [forallb].
  intros [H1 H2]%andb_true_iff. unfold received in *. cbn. rewrite (IH H2).
  by destruct ev.
Qed.

(** The same case analysis, with what the collaborators add to the trace
    made explicit. *)
Ltac step_cases_tr H :=
  step_cases H;
  try match goal with
      | Hb : build _ _ _ _ _ = (_, ?w') |- _ =>
          let evs := fresh "evs" in let Htr := fresh "Htr" in
          let Hext := fresh "Hext" in
          pose proof (build_trace _ _ _ _ _ _ Hb) as (evs & Htr & Hext);
          destruct w' as [fs' tr']; cbn in Htr; subst tr'
      | Hb : ingest _ _ _ _ = (_, ?w') |- _ =>
          let evs := fresh "evs" in let Htr := fresh "Htr" in
          let Hext := fresh "Hext" in
          pose proof (ingest_trace _ _ _ _ _ _ Hb) as (evs & Htr & Hext);
          destruct w' as [fs' tr']; cbn in Htr; subst tr'
      | Hb : finish _ _ _ = (_, ?w') |- _ =>
          let evs := fresh "evs" in let Htr := fresh "Htr" in
          let Hext := fresh "Hext" in
          pose proof (finish_trace _ _ _ _ _ Hb) as (evs & Htr & Hext);
          destruct w' as [fs' tr']; cbn in Htr; subst tr'
      end.

(** What a step leaves untouched in every task. *)
Lemma step_stable s l s' :
  Inv cfg todos0 s → step ext cfg l s = Some s' →
  ∀ d td, tasks s !! d = Some td →
    ∃ td', tasks s' !! d = Some td' ∧ deps td' = deps td ∧
      (started td = true → started td' = true) ∧
      (done td = true → done td' = true) ∧
      ((∃ p, procs s !! d = Some p ∧ finishing p = true) → err td' = err td).
Proof.
  intros HI H. step_cases H; cbn; intros d0 td0 Hd0; map_cases;
    (eexists; split; [done|]); cbn; split_and!; try done.
  all: intros (p' & ? & Hf); by simplify_eq.
Qed.

Lemma dep_started_stable s l s' d :
  Inv cfg todos0 s → step ext cfg l s = Some s' → dep_started s d → dep_started s' d.
Proof.
  intros HI H (td & Htd & Hst).
  destruct (step_stable _ _ _ HI H _ _ Htd) as (td' & ? & ? & ? & ?).
  exists td'. auto.
Qed.

Lemma done_stable s l s' d td :
  Inv cfg todos0 s → step ext cfg l s = Some s' →
  tasks s !! d = Some td → done td = true →
  ∃ td', tasks s' !! d = Some td' ∧ done td' = true ∧ err td' = err td.
Proof.
  intros HI H Htd Hdone.
  destruct (step_stable _ _ _ HI H _ _ Htd) as (td' & ? & ? & ? & ? & Herr).
  exists td'. split_and!; auto. apply Herr.
  apply (inv_done _ _ _ HI _ _ Htd) in Hdone as (p & Hp & Hl).
  exists p. split; [done|]. by destruct p.
Qed.

Lemma dep_ok_stable s l s' d :
  Inv cfg todos0 s → step ext cfg l s = Some s' → dep_ok s d → dep_ok s' d.
Proof.
  intros HI H (td & Htd & Hdone & Herr).
  destruct (done_stable _ _ _ _ _ HI H Htd Hdone) as (td' & ? & ? & Heq).
  exists td'. split_and!; auto. congruence.
Qed.

Lemma step_acquire_new s l s' m :
  step ext cfg l s = Some s' → EvAcquire m ∈ tr s' →
  EvAcquire m ∈ tr s ∨ (procs s !! m = Some PAcquire ∧ procs s' !! m = Some PBuild).
Proof.
  unfold tr. intros H. step_cases_tr H; cbn; try done.
  all: rewrite ?elem_of_app, ?elem_of_cons, ?elem_of_nil.
  all: try (pose proof (ext_not_sched _ (EvAcquire m) Hext eq_refl)).
  all: try (intuition congruence).
  intros [?|[?|[]]]; auto. simplify_eq. right. by rewrite lookup_insert_eq.
Qed.

Lemma adopted_stable s l s' m tm tm' :
  Inv cfg todos0 s → step ext cfg l s = Some s' →
  tasks s' !! m = Some tm' → deps tm' = deps tm → err tm' = err tm →
  adopted s tm → adopted s' tm'.
Proof.
  intros HI H Hm' Hdeps Herr (d & td & Hin & Htd & Hdone & Hsome & Heq).
  destruct (done_stable _ _ _ _ _ HI H Htd Hdone) as (td' & ? & ? & Heq').
  exists d, td'. rewrite Hdeps, Herr, Heq'. auto.
Qed.

Lemma pc_inv_mono s l s' m tm tm' pm :
  Inv cfg todos0 s → step ext cfg l s = Some s' →
  tasks s !! m = Some tm → procs s !! m = Some pm →
  tasks s' !! m = Some tm' → procs s' !! m = Some pm →
  pc_inv s m tm pm → pc_inv s' m tm' pm.
Proof.
  intros HI H Hm Hpm Hm' Hpm' Hinv.
  destruct (step_stable _ _ _ HI H _ _ Hm) as (tm2 & Hm2 & Hdeps & _ & _ & Herr).
  rewrite Hm' in Hm2. simplify_eq.
  pose proof (λ d, dep_started_stable _ _ _ d HI H) as HS.
  pose proof (λ d, dep_ok_stable _ _ _ d HI H) as HO.
  assert (HA : EvAcquire m ∈ tr s' → EvAcquire m ∈ tr s ∨ pm = PBuild).
  { intros Hin. destruct (step_acquire_new _ _ _ _ H Hin) as [?|[_ ?]]; [auto|].
    right. congruence. }
  destruct pm; cbn in *; rewrite Hdeps; try (intuition eauto; fail).
  all: destruct Hinv as [H1 [H2|[H2 H3]]]; (split; [eauto|]); [by eauto|];
    right; (split; [intros [?|?]%HA; done|]);
    eapply adopted_stable; eauto; apply Herr; eauto.
Qed.

Lemma step_pc s l s' :
  Inv cfg todos0 s → step ext cfg l s = Some s' →
  ∀ m tm pm, tasks s' !! m = Some tm → procs s' !! m = Some pm → pc_inv s' m tm pm.
Proof.
  intros HI H m tm pm Hm' Hpm'.
  pose proof (λ tm0 pm0 tm' A B C D,
              pc_inv_mono s l s' m tm0 tm' pm0 HI H A B C D) as Hmono.
  pose proof (λ d, dep_started_stable _ _ _ d HI H) as HS.
  pose proof (λ d, dep_ok_stable _ _ _ d HI H) as HO.
  pose proof (λ tm0 tm' A B C D, adopted_stable s l s' m tm0 tm' HI H A B C D) as HAd.
  pose proof (step_acquire_new _ _ _ m H) as HA.
  pose proof (inv_pc _ _ _ HI) as Hpc.
  step_cases H; cbn in *; map_cases.
  all: try (by eapply Hmono; eauto).
  all: clear Hmono.
  all: try (pose proof (Hpc _ _ _ Ht Hp) as Hold; cbn in Hold).
  (* a task started by this step *)
  all: try solve
    [ split; [intros x; apply Hranges | intros x Hd Hn; exfalso; by apply Hn, Hranges] ].
  all: try solve [ pose proof (idle_no_proc _ _ _ HI Ht Hst); congruence ].
  (* the end of the loop that starts the dependencies *)
  all: try solve
    [ destruct Hold as [_ Hs1];
      split_and!; [intros x; apply Hranges
                  | intros x Hd; apply HS, Hs1; [done | apply not_elem_of_nil]
                  | intros x Hd Hn; exfalso; by apply Hn, Hranges] ].
  (* one dependency started *)
  all: try solve
    [ destruct Hold as [Hr Hs1];
      split; [intros d0 Hd0; apply Hr; by apply list_elem_of_further|];
      intros d0 Hd0 Hn; destruct (decide (d0 = d)) as [->|Hne];
      [ first [ apply HS; by exists td
              | exists (set_started td); cbn; by rewrite lookup_insert_eq ]
      | apply HS, Hs1; [done|]; rewrite not_elem_of_cons; done ] ].
  (* the end of the loop that waits, and the steps with the permit *)
  all: try solve
    [ destruct Hold as (Hr & Hs1 & Ho);
      split; intros x Hd; [apply HS, Hs1 | apply HO, Ho]; auto using not_elem_of_nil ].
  all: try solve
    [ destruct Hold as [Hs1 Ho]; split; intros; [apply HS, Hs1 | apply HO, Ho]; done ].
  all: try solve
    [ destruct Hold as [Hs1 Ho];
      split; [intros; apply HS, Hs1; done | left; intros; apply HO, Ho; done] ].
  (* one dependency waited for, without error *)
  all: try solve
    [ destruct Hold as (Hr & Hs1 & Ho);
      split_and!; [intros d0 ?; apply Hr; by apply list_elem_of_further
                  | intros; apply HS, Hs1; done |];
      intros d0 Hd0 Hn; apply HO; destruct (decide (d0 = d)) as [->|Hne];
      [ by exists dep | apply Ho; [done|]; rewrite not_elem_of_cons; done ] ].
  (* the deferred steps *)
  all: try solve
    [ destruct Hold as [Hs1 [Ho|[Hacq Had]]];
      (split; [intros; apply HS, Hs1; done|]); [left; intros; apply HO, Ho; done|];
      right; split; [intros [?|[? _]]%HA; [done|congruence]|];
      apply (HAd t); cbn; rewrite ?lookup_insert_eq; done ].
  (* the error of a dependency adopted *)
  destruct Hold as (Hr & Hs1 & Ho).
  split; [intros; apply HS, Hs1; done|]. right. split.
  - intros Hin. apply (inv_acq _ _ _ HI) in Hin as (p' & Hp' & Hreg).
    rewrite Hp in Hp'. by simplify_eq.
  - exists d, dep. cbn. split_and!; try done.
    + apply Hr, list_elem_of_here.
    + destruct (decide (m = d)) as [Heq|Hne]; [|by rewrite lookup_insert_ne].
      exfalso. subst d. rewrite Ht in Hdep. injection Hdep as <-.
      apply (inv_done _ _ _ HI _ _ Ht) in Hdone as (p' & Hp' & Hl).
      rewrite Hp in Hp'. by simplify_eq.
Qed.

Lemma step_rank s l s' m pm :
  Inv cfg todos0 s → step ext cfg l s = Some s' → procs s !! m = Some pm →
  ∃ pm', procs s' !! m = Some pm' ∧ pc_rank pm ≤ pc_rank pm'.
Proof.
  intros HI H Hm. step_cases H; cbn; map_cases; eauto.
  all: try (pose proof (idle_no_proc _ _ _ HI Htd Hst); congruence).
  all: eexists; split; [done|]; cbn; lia.
Qed.

Lemma ingest_todos c t a w :
  a_todos (ingest c t a w).1 = a_todos a ∖ {[pkg t]}.
Proof.
  unfold ingest. destruct (err t); [done|].
  destruct (skipped t); [done|]. by destruct (negb _).
Qed.

Lemma sent_app l1 l2 : sent (l1 ++ l2) = sent l1 ++ sent l2.
Proof. apply omap_app. Qed.

Lemma received_app l1 l2 : received (l1 ++ l2) = received l1 ++ received l2.
Proof. apply omap_app. Qed.

(** Membership of a scheduler event in the events added by a step. *)
Ltac new_event Hin :=
  rewrite ?elem_of_app, ?elem_of_cons, ?elem_of_nil in Hin;
  repeat match type of Hin with
         | _ ∨ _ => destruct Hin as [Hin|Hin]
         end;
  simplify_eq; try done;
  try (exfalso; eapply ext_not_sched; [eassumption | | exact Hin]; done).

(** What a step adds to the trace, as far as the scheduler is concerned. *)
Lemma step_trace s l s' :
  Inv cfg todos0 s → step ext cfg l s = Some s' →
  ∃ evs, tr s' = tr s ++ evs ∧
    (∀ m, EvAcquire m ∈ evs → procs s !! m = Some PAcquire ∧ procs s' !! m = Some PBuild) ∧
    (∀ m, EvEnterBuild m ∈ evs → procs s !! m = Some PBuild) ∧
    (∀ m, EvDone m ∈ evs → procs s !! m = Some PMarkDone ∧ procs s' !! m = Some PSend) ∧
    ((sent evs = [] ∧ received evs = [] ∧ (∀ m, EvSend m ∉ evs) ∧ donech s' = donech s
      ∧ a_todos (agg s') = a_todos (agg s)) ∨
     (∃ m, evs = [EvSend m] ∧ procs s !! m = Some PSend ∧ procs s' !! m = Some PExit
           ∧ donech s' = donech s ++ [m] ∧ a_todos (agg s') = a_todos (agg s)) ∨
     (∃ m, sent evs = [] ∧ received evs = [m] ∧ (∀ m', EvSend m' ∉ evs)
           ∧ donech s = m :: donech s'
           ∧ a_todos (agg s') = a_todos (agg s) ∖ {[m]})).
Proof.
  intros HI H. unfold tr. step_cases_tr H; cbn.
  all: match goal with
       | |- ∃ evs, ?a = ?a ++ evs ∧ _ => exists []; split; [by rewrite app_nil_r|]
       | |- ∃ evs, (?a ++ ?x) ++ ?y = ?a ++ evs ∧ _ =>
           exists (x ++ y); split; [by rewrite app_assoc|]
       | |- ∃ evs, ?a ++ ?x = ?a ++ evs ∧ _ => exists x; split; [done|]
       end.
  all: split_and!;
    try (intros m Hin; new_event Hin; rewrite ?lookup_insert_eq; done).
  (* the send *)
  all: try (right; left; eexists; split_and!; try done; by rewrite lookup_insert_eq).
  (* the receive *)
  all: try (right; right; exists n0;
            rewrite sent_app, received_app, (ext_sent evs), (ext_received evs) by done;
            split_and!; try done;
            [ intros m Hin; new_event Hin
            | replace a' with (ingest (count s) t0 (agg s)
                                 (emit (EvRecv n0) (world s)).2).1 by (by rewrite Hing);
              rewrite ingest_todos;
              by destruct (inv_graph _ _ _ HI _ _ Ht0) as [-> _] ]).
  (* the other steps *)
  all: left; rewrite ?sent_app, ?received_app, ?(ext_sent evs), ?(ext_received evs) by done;
    split_and!; try done; intros m Hin; new_event Hin.
Qed.

(** Where a program point comes from. *)
Lemma step_prov s l s' m pm' :
  Inv cfg todos0 s → step ext cfg l s = Some s' → procs s' !! m = Some pm' →
  procs s !! m = Some pm' ∨
  (procs s !! m = None ∧ pc_rank pm' = 0) ∨
  (∃ pm, procs s !! m = Some pm ∧
     match pm' with
     | PStartDeps _ => pc_rank pm = 0
     | PWaitDeps _ => pc_rank pm ≤ 1
     | PAcquire => pc_rank pm = 1
     | PBuild => pm = PAcquire
     | PRelease => pm = PBuild
     | PMarkDone => pm = PRelease ∨ pc_rank pm = 1
     | PSend => pm = PMarkDone
     | PExit => pm = PSend
     end).
Proof.
  intros HI H Hm. step_cases H; cbn in *; map_cases; eauto.
  all: try (pose proof (idle_no_proc _ _ _ HI Htd Hst); eauto; fail).
  all: right; right; eexists; split; [done|]; cbn; auto.
Qed.

Lemma step_conv s l s' m :
  Inv cfg todos0 s → step ext cfg l s = Some s' →
  (procs s !! m = Some PAcquire → procs s' !! m = Some PBuild → EvAcquire m ∈ tr s') ∧
  (procs s !! m = Some PMarkDone → procs s' !! m = Some PSend → EvDone m ∈ tr s') ∧
  (procs s !! m = Some PSend → procs s' !! m = Some PExit → m ∈ sent (tr s')).
Proof.
  intros HI H. unfold tr.
  step_cases H; cbn; map_cases; split_and!; intros; simplify_eq.
  all: try (pose proof (idle_no_proc _ _ _ HI Htd Hst); congruence).
  all: rewrite ?sent_app; rewrite elem_of_app; right; cbn; apply list_elem_of_here.
Qed.

Lemma rank_region p0 : (in_region p0 || finishing p0) = true ↔ 3 ≤ pc_rank p0.
Proof. destruct p0; cbn; split; (done || lia). Qed.

Lemma rank_latched p0 : latched p0 = true ↔ 6 ≤ pc_rank p0.
Proof. destruct p0; cbn; split; (done || lia). Qed.

Lemma rank_exit p0 : p0 = PExit ↔ 7 ≤ pc_rank p0.
Proof. destruct p0; cbn; split; (done || lia). Qed.

Lemma step_acq s l s' :
  Inv cfg todos0 s → step ext cfg l s = Some s' →
  ∀ m, EvAcquire m ∈ tr s' →
    ∃ pm, procs s' !! m = Some pm ∧ (in_region pm || finishing pm) = true.
Proof.
  intros HI H m Hin.
  destruct (step_trace _ _ _ HI H) as (evs & Htr & Hacq & _).
  rewrite Htr, elem_of_app in Hin. destruct Hin as [Hin|Hin].
  - apply (inv_acq _ _ _ HI) in Hin as (pm & Hpm & Hr).
    destruct (step_rank _ _ _ _ _ HI H Hpm) as (pm' & Hpm' & Hle).
    exists pm'. split; [done|]. apply rank_region. apply rank_region in Hr. lia.
  - destruct (Hacq _ Hin) as [_ Hb]. eauto.
Qed.

Lemma step_held s l s' :
  Inv cfg todos0 s → step ext cfg l s = Some s' →
  ∀ m pm, procs s' !! m = Some pm → in_region pm = true → EvAcquire m ∈ tr s'.
Proof.
  intros HI H m pm Hpm Hr.
  destruct (step_trace _ _ _ HI H) as (evs & Htr & _).
  destruct (step_prov _ _ _ _ _ HI H Hpm) as [Hold|[[_ Hz]|(pm0 & Hpm0 & Hfrom)]].
  - rewrite Htr, elem_of_app. left. eapply inv_held; eauto.
  - by destruct pm.
  - destruct pm; try done.
    + subst pm0. by apply (step_conv _ _ _ m HI H).
    + subst pm0. rewrite Htr, elem_of_app. left. eapply inv_held; eauto.
Qed.

Lemma step_enter s l s' :
  Inv cfg todos0 s → step ext cfg l s = Some s' →
  ∀ m, EvEnterBuild m ∈ tr s' → EvAcquire m ∈ tr s'.
Proof.
  intros HI H m Hin.
  destruct (step_trace _ _ _ HI H) as (evs & Htr & _ & Hent & _).
  rewrite Htr, elem_of_app in *. destruct Hin as [Hin|Hin].
  - left. by apply (inv_enter _ _ _ HI).
  - left. eapply inv_held; eauto.
Qed.

Lemma step_sent s l s' :
  Inv cfg todos0 s → step ext cfg l s = Some s' →
  ∀ m, m ∈ sent (tr s') ↔ procs s' !! m = Some PExit.
Proof.
  intros HI H m.
  destruct (step_trace _ _ _ HI H) as (evs & Htr & _ & _ & _ & Hch).
  split.
  - rewrite Htr, sent_app, elem_of_app. intros [Hin|Hin].
    + apply (inv_sent _ _ _ HI) in Hin.
      destruct (step_rank _ _ _ _ _ HI H Hin) as (pm' & Hpm' & Hle).
      rewrite Hpm'. f_equal. apply rank_exit. cbn in Hle. lia.
    + destruct Hch as [(Hs & _)|[(m0 & -> & _ & Hex & _)|(m0 & Hs & _)]];
        rewrite ?Hs in Hin; try by apply elem_of_nil in Hin.
      cbn in Hin. apply list_elem_of_singleton in Hin. by subst.
  - intros Hpm.
    destruct (step_prov _ _ _ _ _ HI H Hpm) as [Hold|[[_ Hz]|(pm0 & Hpm0 & ->)]].
    + rewrite Htr, sent_app, elem_of_app. left. by apply (inv_sent _ _ _ HI).
    + done.
    + by apply (step_conv _ _ _ m HI H).
Qed.

Lemma step_sent_nodup s l s' :
  Inv cfg todos0 s → step ext cfg l s = Some s' → NoDup (sent (tr s')).
Proof.
  intros HI H.
  destruct (step_trace _ _ _ HI H) as (evs & Htr & _ & _ & _ & Hch).
  pose proof (inv_sent_nodup _ _ _ HI) as Hnd.
  rewrite Htr, sent_app.
  destruct Hch as [(Hs & _)|[(m0 & -> & Hps & _)|(m0 & Hs & _)]];
    rewrite ?Hs, ?app_nil_r; try done.
  cbn. apply NoDup_app. split_and!; [done| |apply NoDup_singleton].
  intros x Hx ->%list_elem_of_singleton.
  apply (inv_sent _ _ _ HI) in Hx. congruence.
Qed.

Lemma step_done_ev s l s' :
  Inv cfg todos0 s → step ext cfg l s = Some s' →
  ∀ m, EvDone m ∈ tr s' ↔ ∃ pm, procs s' !! m = Some pm ∧ latched pm = true.
Proof.
  intros HI H m.
  destruct (step_trace _ _ _ HI H) as (evs & Htr & _ & _ & Hdn & _).
  split.
  - rewrite Htr, elem_of_app. intros [Hin|Hin].
    + apply (inv_done_ev _ _ _ HI) in Hin as (pm & Hpm & Hl).
      destruct (step_rank _ _ _ _ _ HI H Hpm) as (pm' & Hpm' & Hle).
      exists pm'. split; [done|]. apply rank_latched. apply rank_latched in Hl. lia.
    + destruct (Hdn _ Hin) as [_ Hs]. eauto.
  - intros (pm & Hpm & Hl).
    destruct (step_prov _ _ _ _ _ HI H Hpm) as [Hold|[[_ Hz]|(pm0 & Hpm0 & Hfrom)]].
    + rewrite Htr, elem_of_app. left. apply (inv_done_ev _ _ _ HI). eauto.
    + by destruct pm.
    + destruct pm; try done; subst pm0.
      * by apply (step_conv _ _ _ m HI H).
      * rewrite Htr, elem_of_app. left. apply (inv_done_ev _ _ _ HI). eauto.
Qed.

Lemma step_order s l s' :
  Inv cfg todos0 s → step ext cfg l s = Some s' →
  ∀ pre post m, tr s' = pre ++ EvSend m :: post → EvDone m ∈ pre.
Proof.
  intros HI H pre post m Heq.
  destruct (step_trace _ _ _ HI H) as (evs & Htr & _ & _ & _ & Hch).
  rewrite Htr in Heq.
  assert (Hnew : EvSend m ∈ evs → evs = [EvSend m] ∧ EvDone m ∈ tr s).
  { intros Hin.
    destruct Hch as [(_ & _ & Hno & _)|[(m0 & -> & Hps & _)|(m0 & _ & _ & Hno & _)]];
      try (by destruct (Hno m)).
    apply list_elem_of_singleton in Hin. simplify_eq. split; [done|].
    apply (inv_done_ev _ _ _ HI). eauto. }
  apply app_eq_app in Heq as [k [[E1 E2]|[E1 E2]]].
  - destruct k as [|x k]; cbn in E2.
    + rewrite app_nil_r in E1. subst pre.
      apply Hnew. rewrite <- E2. apply list_elem_of_here.
    + simplify_eq. by apply (inv_order _ _ _ HI _ k).
  - assert (EvSend m ∈ evs) as Hin
        by (rewrite E2, elem_of_app; right; apply list_elem_of_here).
    destruct (Hnew Hin) as [E3 Hd]. rewrite E3 in E2.
    destruct k as [|x k]; cbn in E2.
    + rewrite app_nil_r in E1. by subst.
    + injection E2 as _ E2. by destruct k.
Qed.

Lemma step_chan s l s' :
  Inv cfg todos0 s → step ext cfg l s = Some s' →
  received (tr s') ++ donech s' ≡ₚ sent (tr s').
Proof.
  intros HI H.
  destruct (step_trace _ _ _ HI H) as (evs & Htr & _ & _ & _ & Hch).
  pose proof (inv_chan _ _ _ HI) as Hperm.
  rewrite Htr, sent_app, received_app.
  destruct Hch as [(Hs & Hr & _ & -> & _)|[(m0 & -> & _ & _ & -> & _)
                                          |(m0 & Hs & Hr & _ & Hd & _)]].
  - by rewrite Hs, Hr, !app_nil_r.
  - cbn. rewrite app_nil_r, app_assoc. by rewrite Hperm.
  - rewrite Hs, Hr, app_nil_r. rewrite Hd in Hperm.
    rewrite <- Hperm, <- app_assoc. done.
Qed.

Lemma step_todos s l s' :
  Inv cfg todos0 s → step ext cfg l s = Some s' →
  a_todos (agg s') = todos0 ∖ list_to_set (received (tr s')).
Proof.
  intros HI H.
  destruct (step_trace _ _ _ HI H) as (evs & Htr & _ & _ & _ & Hch).
  pose proof (inv_todos _ _ _ HI) as Ht.
  rewrite Htr, received_app.
  destruct Hch as [(_ & Hr & _ & _ & ->)|[(m0 & -> & _ & _ & _ & ->)
                                         |(m0 & _ & Hr & _ & _ & ->)]].
  - by rewrite Hr, app_nil_r.
  - by rewrite app_nil_r.
  - rewrite Hr, Ht, list_to_set_app_L. cbn.
    apply set_eq. intros x.
    rewrite !elem_of_difference, !elem_of_union, elem_of_singleton, elem_of_empty.
    tauto.
Qed.

Lemma step_ret s l s' :
  Inv cfg todos0 s → step ext cfg l s = Some s' →
  ∀ res, mpc s' = MReturn res → a_todos (agg s') = ∅.
Proof.
  intros HI H res. pose proof (inv_ret _ _ _ HI) as Hr.
  step_cases H; cbn; eauto; try congruence.
  intros _. apply Nat.eqb_eq in Hsz. by apply size_empty_iff, leibniz_equiv in Hsz.
Qed.

(** Every step preserves the invariant. *)
Lemma Inv_step s l s' :
  Inv cfg todos0 s → step ext cfg l s = Some s' → Inv cfg todos0 s'.
Proof.
  intros HI H. constructor.
  - eapply step_graph; eauto.
  - eapply step_started; eauto.
  - eapply step_procs; eauto.
  - eapply step_done; eauto.
  - eapply step_jobch; eauto.
  - eapply step_pc; eauto.
  - eapply step_acq; eauto.
  - eapply step_held; eauto.
  - eapply step_enter; eauto.
  - eapply step_sent; eauto.
  - eapply step_sent_nodup; eauto.
  - eapply step_done_ev; eauto.
  - eapply step_order; eauto.
  - eapply step_chan; eauto.
  - eapply step_todos; eauto.
  - eapply step_ret; eauto.
Qed.

Lemma Inv_init tasks0 fs0 :
  closed_graph tasks0 → fresh_tasks tasks0 →
  Inv cfg todos0 (init ext tasks0 todos0 fs0).
Proof.
  intros Hg Hf. constructor; cbn; try done.
  - intros m tm Hm. destruct (Hf _ _ Hm) as [-> _].
    rewrite lookup_empty. split; [done | by intros []].
  - intros m. rewrite lookup_empty. by intros [].
  - intros m tm Hm. destruct (Hf _ _ Hm) as [_ ->].
    split; [done|]. intros (? & Hl & _). by rewrite lookup_empty in Hl.
  - split; [done|lia].
  - intros m Hin. by apply elem_of_nil in Hin.
  - intros m Hin. by apply elem_of_nil in Hin.
  - intros m. rewrite lookup_empty. split; [|done]. intros Hin. by apply elem_of_nil in Hin.
  - apply NoDup_nil_2.
  - intros m. split; [intros Hin; by apply elem_of_nil in Hin|].
    intros (? & Hl & _). by rewrite lookup_empty in Hl.
  - intros pre post m Heq. by destruct pre.
  - by rewrite difference_empty_L.
Qed.

Lemma Inv_reachable tasks0 fs0 s :
  closed_graph tasks0 → fresh_tasks tasks0 →
  reachable ext cfg (init ext tasks0 todos0 fs0) s → Inv cfg todos0 s.
Proof.
  intros Hg Hf Hr. induction Hr as [|s l s' _ IH Hstep].
  - by apply Inv_init.
  - by eapply Inv_step.
Qed.

Lemma run_reachable ls s0 s :
  run ext cfg ls s0 = Some s → reachable ext cfg s0 s.
Proof.
  assert (G : ∀ ls s1, reachable ext cfg s0 s1 → run ext cfg ls s1 = Some s →
                       reachable ext cfg s0 s).
  { clear ls. induction ls as [|l ls IH]; intros s1 Hr Hrun; cbn in Hrun.
    - by simplify_eq.
    - apply bind_Some in Hrun as (s2 & Hstep & Hrun).
      eapply IH; [|done]. by eapply reach_step. }
  intros Hrun. eapply G; [apply reach_init | done].
Qed.

(** The error list holds one entry for each received task whose outcome
    is an error, in the order of reception. *)
Lemma ingest_errs c t a w :
  a_errs (ingest c t a w).1
  = a_errs a ++ match err t with
                | Some e => [EWrap ("failed to build " +:+ pkg t +:+ ": ") e]
                | None => []
                end.
Proof.
  unfold ingest. destruct (err t); [done|]. rewrite app_nil_r.
  destruct (skipped t); [done|]. by destruct (negb _).
Qed.

Lemma step_errs s l s' :
  Inv cfg todos0 s → step ext cfg l s = Some s' →
  a_errs (agg s) = reported s (received (tr s)) →
  a_errs (agg s') = reported s' (received (tr s')).
Proof.
  intros HI H Herrs.
  assert (Hsame : ∀ m, m ∈ received (tr s) → report s' m = report s m).
  { intros m Hin.
    assert (m ∈ sent (tr s)) as Hsent.
    { rewrite <- (inv_chan _ _ _ HI), elem_of_app. by left. }
    apply (inv_sent _ _ _ HI) in Hsent.
    destruct (inv_procs _ _ _ HI m) as [tm Htm]; [eauto|].
    destruct (step_stable _ _ _ HI H _ _ Htm) as (tm' & Htm' & _ & _ & _ & He).
    destruct (inv_graph _ _ _ HI _ _ Htm) as [Hpkg _].
    destruct (step_graph _ _ _ HI H _ _ Htm') as [Hpkg' _].
    unfold report. rewrite Htm, Htm'. cbn. rewrite He, Hpkg, Hpkg' by eauto. done. }
  assert (Hold : reported s' (received (tr s)) = reported s (received (tr s))).
  { unfold reported. revert Hsame. generalize (received (tr s)).
    intros k Hk. induction k as [|x k IH]; [done|]. cbn.
    rewrite Hk by apply list_elem_of_here.
    rewrite IH; [done|]. intros m Hm. apply Hk. by apply list_elem_of_further. }
  unfold tr in *. step_cases_tr H;
    try match goal with
        | Hing : ingest ?c ?t ?a ?w = (_, _) |- _ =>
            pose proof (ingest_errs c t a w) as Hie; rewrite Hing in Hie;
            cbn [fst] in Hie
        end;
    cbn in *;
    rewrite ?received_app, ?(ext_received evs) by done; cbn;
    rewrite ?app_nil_r; try (by rewrite Herrs, <- Hold).
  rewrite Hie, Herrs. unfold reported in *. rewrite omap_app, Hold.
  f_equal. cbn. unfold report. cbn. rewrite Ht0. cbn.
  by destruct (err t0).
Qed.

Lemma errs_reachable tasks0 fs0 s :
  closed_graph tasks0 → fresh_tasks tasks0 →
  reachable ext cfg (init ext tasks0 todos0 fs0) s →
  a_errs (agg s) = reported s (received (tr s)).
Proof.
  intros Hg Hf Hr. induction Hr as [|s l s' Hr IH Hstep]; [done|].
  eapply step_errs; eauto. by eapply Inv_reachable.
Qed.


(** A task that is done without error has all its dependencies, direct
    and transitive, done without error. *)
Lemma dep_ok_deps s m d :
  Inv cfg todos0 s → dep_ok s m → depends s m d → dep_ok s d.
Proof.
  intros HI (tm & Htm & Hdone & Herr) (tm' & Htm' & Hin).
  rewrite Htm in Htm'. simplify_eq.
  apply (inv_done _ _ _ HI _ _ Htm) in Hdone as (pm & Hpm & Hl).
  pose proof (inv_pc _ _ _ HI _ _ _ Htm Hpm) as Hinv.
  destruct pm; try done; cbn in Hinv.
  all: destruct Hinv as [_ [Hok|[_ (d' & td' & _ & _ & _ & Hsome & Heq)]]]; [by auto|].
  all: rewrite Herr in Heq; rewrite <- Heq in Hsome; by destruct Hsome.
Qed.

Lemma dep_ok_closure s m d :
  Inv cfg todos0 s → dep_ok s m → rtc (depends s) m d → dep_ok s d.
Proof.
  intros HI Hok Hrtc. induction Hrtc as [|x y z Hxy _ IH]; [done|].
  apply IH. by eapply dep_ok_deps.
Qed.

Lemma done_deps_started s m tm d :
  Inv cfg todos0 s → tasks s !! m = Some tm → done tm = true → d ∈ deps tm →
  dep_started s d.
Proof.
  intros HI Htm Hdone Hin.
  apply (inv_done _ _ _ HI _ _ Htm) in Hdone as (pm & Hpm & Hl).
  pose proof (inv_pc _ _ _ HI _ _ _ Htm Hpm) as Hinv.
  destruct pm; try done; cbn in Hinv; destruct Hinv as [Hs _]; auto.
Qed.




(** Once buildAll has returned nobody receives from donech: a goroutine
    that finds the channel full at its send stays there. *)
Lemma stuck_at_send s l s' m r0 :
  Inv cfg todos0 s → mpc s = MReturn r0 → jobs cfg ≤ length (donech s) →
  procs s !! m = Some PSend → step ext cfg l s = Some s' →
  mpc s' = MReturn r0 ∧ donech s' = donech s ∧ procs s' !! m = Some PSend
  ∧ sent (tr s') = sent (tr s).
Proof.
  intros HI Hret Hcap Hm H. unfold tr.
  step_cases_tr H; cbn; try congruence.
  all: try (apply Nat.ltb_lt in Hroom; lia).
  all: try (pose proof (idle_no_proc _ _ _ HI Htd Hst)).
  all: rewrite ?sent_app, ?(ext_sent evs) by done; cbn; rewrite ?app_nil_r.
  all: split_and!; try done.
  all: map_cases; congruence.
Qed.

End SchedulerProps.

Lemma table_ok_graph (ts : gmap string task) :
  table_ok ts = true → closed_graph ts ∧ fresh_tasks ts.
Proof.
  intros Hok%bool_decide_eq_true_1.
  split; intros n t Hn; destruct (Hok n t Hn) as (Hp & Hs & Hd & Hdeps).
  - split; [done|]. intros d Hin. by eapply Forall_forall in Hdeps.
  - done.
Qed.

(** Decides [table_ok] for a concrete task table. *)
Ltac table_tac := apply table_ok_graph; by vm_compute.

Lemma ranges_all_ext_ok fetch failing : ranges_all (ext_ok fetch failing).
Proof. by intros site l d. Qed.



(** ** The job cap *)

(** C1: with the job cap J taken from --jobs (0 standing for the number of
    hardware threads), J is at least 1 and in every reachable state the
    number of goroutines between the send on jobch and the receive from it
    is at most J; it equals the number of permits in jobch, so each task in
    its build step holds exactly one; and a task in that region has
    acquired its permit with every dependency done without error, that is
    after all its dependency waits. *)
Theorem job_cap_respected (ext : Extern) (cfg : global)
    (tasks0 : gmap string task) (todos0 fs0 : gset string)
    (flag gomaxprocs : Z) (s : State) :
  ranges_all ext → closed_graph tasks0 → fresh_tasks tasks0 →
  (0 ≤ flag)%Z → (1 ≤ gomaxprocs)%Z →
  jobs cfg = Z.to_nat (cmd_jobs flag gomaxprocs) →
  reachable ext cfg (init ext tasks0 todos0 fs0) s →
  1 ≤ jobs cfg ∧
  region_count s ≤ jobs cfg ∧
  jobch s = region_count s ∧
  (∀ n p t, procs s !! n = Some p → in_region p = true → tasks s !! n = Some t →
     EvAcquire n ∈ tr s ∧ ∀ d, d ∈ deps t → dep_ok s d).
Proof.
  intros Hranges Hg Hf Hflag Hgmp Hjobs Hr.
  pose proof (Inv_reachable ext cfg todos0 Hranges tasks0 fs0 s Hg Hf Hr) as HI.
  destruct (inv_jobch _ _ _ HI) as [Hj Hle].
  split_and!.
  - rewrite Hjobs. unfold cmd_jobs. destruct (flag =? 0)%Z eqn:E; lia.
  - lia.
  - done.
  - intros n p t Hp Hreg Ht. split; [by eapply inv_held|].
    pose proof (inv_pc _ _ _ HI _ _ _ Ht Hp) as Hinv.
    destruct p; try done; cbn in Hinv; tauto.
Qed.

(** An instance: two jobs, b depending on a, at the moment a is inside its
    build step and b waits for it. *)
Lemma job_cap_respected_witness :
  ∃ s, run (ext_ok fetch_none []) (cfg_ex 2 ["x86_64"] ∅)
           ([LMain; LMain; LTask "b"; LTask "b"] ++ replicate 3 (LTask "a"))
           (init (ext_ok fetch_none []) (tasks_ex [("a", []); ("b", ["a"])]) {["b"]} ∅)
       = Some s ∧
       procs s !! "a" = Some PBuild ∧
       region_count s ≤ 2.
Proof.
  destruct (run (ext_ok fetch_none []) (cfg_ex 2 ["x86_64"] ∅)
              ([LMain; LMain; LTask "b"; LTask "b"] ++ replicate 3 (LTask "a"))
              (init (ext_ok fetch_none []) (tasks_ex [("a", []); ("b", ["a"])])
                    {["b"]} ∅)) as [s|] eqn:Hrun; [|by vm_compute in Hrun].
  exists s. split; [done|].
  destruct (job_cap_respected (ext_ok fetch_none []) (cfg_ex 2 ["x86_64"] ∅)
              (tasks_ex [("a", []); ("b", ["a"])]) {["b"]} ∅ 2 8 s)
    as (_ & Hle & _).
  - apply ranges_all_ext_ok.
  - table_tac.
  - table_tac.
  - lia.
  - lia.
  - reflexivity.
  - by eapply run_reachable.
  - split; [|exact Hle].
    vm_compute in Hrun. injection Hrun as <-. by vm_compute.
Defined.

(** ** Completions *)

Lemma stuck_for_ever (ext : Extern) (cfg : global) (tasks0 : gmap string task)
    (todos0 fs0 : gset string) (ls : list label) (s s' : State) (m : string)
    (r : option error) :
  ranges_all ext → closed_graph tasks0 → fresh_tasks tasks0 →
  reachable ext cfg (init ext tasks0 todos0 fs0) s →
  mpc s = MReturn r → jobs cfg ≤ length (donech s) → procs s !! m = Some PSend →
  run ext cfg ls s = Some s' →
  procs s' !! m = Some PSend ∧ sent (tr s') = sent (tr s).
Proof.
  intros Hranges Hg Hf. revert s.
  induction ls as [|l ls IH]; intros s Hr Hret Hcap Hm Hrun; cbn in Hrun.
  - by simplify_eq.
  - apply bind_Some in Hrun as (s1 & Hstep & Hrun).
    pose proof (Inv_reachable ext cfg todos0 Hranges tasks0 fs0 s Hg Hf Hr) as HI.
    destruct (stuck_at_send ext cfg todos0 s l s1 m r HI Hret Hcap Hm Hstep)
      as (Hret1 & Hd1 & Hm1 & Hs1).
    destruct (IH s1) as [Hm' Hs']; [by eapply reach_step|done|by rewrite Hd1|done|done|].
    split; [done | by rewrite Hs', Hs1].
Qed.

(** C2, the claim as it is written, fails: a started task need not send.
    One job, b selected, b depending on a1, a2 and a3, the build of a1
    failing. b adopts the error of a1 without waiting for a2 and a3 and
    is received, and buildAll returns. a2 then fills donech, whose
    capacity is one; a3, started and marked done, finds the channel full,
    and whatever happens afterwards it stays at its send and has sent
    nothing. *)
Lemma started_task_never_sends_counterexample :
  ∃ s r t,
    run (ext_ok fetch_none ["a1.yaml"]) (cfg_ex 1 ["x86_64"] ∅)
        ([LMain; LMain] ++ replicate 4 (LTask "b") ++ whole "a1" 0
           ++ [LTask "b"; LTask "b"; LMain; LTask "b"; LMain; LMain]
           ++ whole "a2" 0 ++ replicate 6 (LTask "a3"))
        (init (ext_ok fetch_none ["a1.yaml"])
              (tasks_ex [("a1", []); ("a2", []); ("a3", []); ("b", ["a1"; "a2"; "a3"])])
              {["b"]} ∅) = Some s ∧
    mpc s = MReturn r ∧
    tasks s !! "a3" = Some t ∧ started t = true ∧ done t = true ∧
    ∀ ls s', run (ext_ok fetch_none ["a1.yaml"]) (cfg_ex 1 ["x86_64"] ∅) ls s = Some s' →
             procs s' !! "a3" = Some PSend ∧ sends "a3" (tr s') = 0.
Proof.
  destruct (run (ext_ok fetch_none ["a1.yaml"]) (cfg_ex 1 ["x86_64"] ∅)
              ([LMain; LMain] ++ replicate 4 (LTask "b") ++ whole "a1" 0
                 ++ [LTask "b"; LTask "b"; LMain; LTask "b"; LMain; LMain]
                 ++ whole "a2" 0 ++ replicate 6 (LTask "a3"))
              (init (ext_ok fetch_none ["a1.yaml"])
                    (tasks_ex [("a1", []); ("a2", []); ("a3", []);
                               ("b", ["a1"; "a2"; "a3"])])
                    {["b"]} ∅))
    as [s|] eqn:Hrun; [|by vm_compute in Hrun].
  pose proof (run_reachable _ _ _ _ _ Hrun) as Hreach.
  assert (Hret : ∃ r, mpc s = MReturn r).
  { clear Hreach. vm_compute in Hrun. injection Hrun as <-. cbn [mpc]. by eexists. }
  destruct Hret as [r Hret].
  assert (Ht : ∃ t, tasks s !! "a3" = Some t ∧ started t = true ∧ done t = true).
  { clear Hreach Hret. vm_compute in Hrun. injection Hrun as <-.
    match goal with |- ∃ t, ?m !! "a3" = Some t ∧ _ =>
      destruct (m !! "a3") as [t|] eqn:Ht; [|by vm_compute in Ht] end.
    exists t. split; [done|]. vm_compute in Ht. by injection Ht as <-. }
  destruct Ht as (t & Ht & Hst & Hdn).
  assert (Hfull : jobs (cfg_ex 1 ["x86_64"] ∅) ≤ length (donech s)
                  ∧ procs s !! "a3" = Some PSend ∧ sends "a3" (tr s) = 0).
  { clear Hreach Hret Ht. vm_compute in Hrun. injection Hrun as <-.
    split_and!; by vm_compute. }
  destruct Hfull as (Hcap & Hp & Hz).
  exists s, r, t. split_and!; [done..|].
  intros ls s' Hrun'.
  destruct (stuck_for_ever (ext_ok fetch_none ["a1.yaml"]) (cfg_ex 1 ["x86_64"] ∅)
              (tasks_ex [("a1", []); ("a2", []); ("a3", []); ("b", ["a1"; "a2"; "a3"])])
              {["b"]} ∅ ls s s' "a3" r (ranges_all_ext_ok _ _)
              (proj1 (table_ok_graph
                        (tasks_ex [("a1", []); ("a2", []); ("a3", []);
                                   ("b", ["a1"; "a2"; "a3"])]) eq_refl))
              (proj2 (table_ok_graph
                        (tasks_ex [("a1", []); ("a2", []); ("a3", []);
                                   ("b", ["a1"; "a2"; "a3"])]) eq_refl))
              Hreach Hret Hcap Hp Hrun') as [Hp' Hs'].
  split; [done|]. unfold sends in *. by rewrite Hs'.
Qed.



(** ** Failed dependencies *)



(** ** Selection *)

Lemma select_todos_args (ts : gmap string task) (args : list string) (todos : gset string) :
  args ≠ [] → select_todos ts args = inr todos →
  todos = list_to_set args ∧ ∀ a, a ∈ args → is_Some (ts !! a).
Proof.
  intros Hne. unfold select_todos.
  destruct (size ts =? 0); [done|].
  destruct (length args =? 0) eqn:Hlen; [by destruct args|].
  clear Hne Hlen. revert todos. generalize args. clear args. intros l todos.
  assert (G : ∀ acc,
    (fix go (l : list string) (todos : gset string) {struct l} : error + gset string :=
       match l with
       | [] => inr todos
       | arg :: rest =>
           match ts !! arg with
           | Some _ => go rest ({[arg]} ∪ todos)
           | None => inl (EOpaque ("constraint " +:+ quote arg +:+ " does not exist"))
           end
       end) l acc = inr todos →
    todos = list_to_set l ∪ acc ∧ ∀ a, a ∈ l → is_Some (ts !! a)).
  { induction l as [|arg l' IH]; intros acc Hgo.
    - simplify_eq. split; [by rewrite list_to_set_nil, union_empty_l_L|].
      intros a Ha. by apply elem_of_nil in Ha.
    - destruct (ts !! arg) as [t|] eqn:Hl; [|done].
      destruct (IH _ Hgo) as [-> Hall]. split.
      + rewrite list_to_set_cons. apply set_eq. intros x.
        rewrite !elem_of_union, elem_of_singleton. tauto.
      + intros a [->|Ha]%elem_of_cons; eauto. }
  intros Hgo. destruct (G ∅ Hgo) as [-> Hall]. split; [|done].
  by rewrite union_empty_r_L.
Qed.

(** C4, the claim as it is written, fails when a dependency outside the
    selection completes first: with b depending on a and the argument list
    [b], the loop receives a and then b, two messages for one argument,
    and the completion of a, which was not selected, puts its own line in
    the log. *)
Lemma drain_counts_dependencies_counterexample :
  ∃ s, select_todos (tasks_ex [("a", []); ("b", ["a"])]) ["b"] = inr {["b"]} ∧
       run (ext_ok fetch_none []) (cfg_ex 2 ["x86_64"] ∅)
           ([LMain; LMain; LTask "b"; LTask "b"] ++ whole "a" 0
              ++ replicate 7 (LTask "b") ++ [LMain; LMain; LMain])
           (init (ext_ok fetch_none []) (tasks_ex [("a", []); ("b", ["a"])]) {["b"]} ∅)
       = Some s ∧
       mpc s = MReturn None ∧
       received (tr s) = ["a"; "b"] ∧
       length (received (tr s)) ≠ length ["b"] ∧
       EvLog Info "Finished building a (0/1)" ∈ tr s.
Proof.
  destruct (run (ext_ok fetch_none []) (cfg_ex 2 ["x86_64"] ∅)
              ([LMain; LMain; LTask "b"; LTask "b"] ++ whole "a" 0
                 ++ replicate 7 (LTask "b") ++ [LMain; LMain; LMain])
              (init (ext_ok fetch_none []) (tasks_ex [("a", []); ("b", ["a"])])
                    {["b"]} ∅))
    as [s|] eqn:Hrun; [|by vm_compute in Hrun].
  exists s. vm_compute in Hrun. injection Hrun as <-.
  split_and!; try (by vm_compute).
  apply list_elem_of_In. vm_compute. tauto.
Qed.

(** C4, amended: for a non-empty argument list accepted by the selection,
    the selected set is the set of the arguments; when buildAll returns, no
    task has been received twice, every selected task has been received and
    is started and done, so the loop consumed at least as many messages as
    there are distinct arguments, exactly that many of them carrying
    selected tasks; every dependency of a task that is done has been
    started; and every transitive dependency of a task that is done without
    error is done without error. *)
Theorem drains_until_selection_received (ext : Extern) (cfg : global)
    (tasks0 : gmap string task) (args : list string) (todos0 fs0 : gset string)
    (s : State) (r : option error) :
  ranges_all ext → closed_graph tasks0 → fresh_tasks tasks0 →
  args ≠ [] → select_todos tasks0 args = inr todos0 →
  reachable ext cfg (init ext tasks0 todos0 fs0) s →
  mpc s = MReturn r →
  todos0 = list_to_set args ∧
  NoDup (received (tr s)) ∧
  (∀ n, n ∈ todos0 →
     n ∈ received (tr s) ∧
     ∃ t, tasks s !! n = Some t ∧ started t = true ∧ done t = true) ∧
  size todos0 ≤ length (received (tr s)) ∧
  length (filter (λ n, n ∈ todos0) (received (tr s))) = size todos0 ∧
  (∀ n t d, tasks s !! n = Some t → done t = true → d ∈ deps t → dep_started s d) ∧
  (∀ n d, dep_ok s n → rtc (depends s) n d → dep_ok s d).
Proof.
  intros Hranges Hg Hf Hne Hsel Hr Hret.
  pose proof (Inv_reachable ext cfg todos0 Hranges tasks0 fs0 s Hg Hf Hr) as HI.
  destruct (select_todos_args _ _ _ Hne Hsel) as [Htodos _].
  assert (Hnd : NoDup (received (tr s))).
  { pose proof (inv_sent_nodup _ _ _ HI) as Hs.
    rewrite <- (inv_chan _ _ _ HI) in Hs. by apply NoDup_app in Hs as [? _]. }
  assert (Hall : ∀ n, n ∈ todos0 → n ∈ received (tr s)).
  { intros n Hn. pose proof (inv_ret _ _ _ HI _ Hret) as Hempty.
    rewrite (inv_todos _ _ _ HI) in Hempty.
    destruct (decide (n ∈ received (tr s))) as [|Hnot]; [done|].
    assert (n ∈ todos0 ∖ list_to_set (received (tr s))) as Hin.
    { apply elem_of_difference. split; [done|]. by rewrite elem_of_list_to_set. }
    rewrite Hempty in Hin. by apply elem_of_empty in Hin. }
  split_and!; try done.
  - intros n Hn. split; [by apply Hall|].
    assert (n ∈ sent (tr s)) as Hsent.
    { rewrite <- (inv_chan _ _ _ HI), elem_of_app. left. by apply Hall. }
    apply (inv_sent _ _ _ HI) in Hsent.
    destruct (inv_procs _ _ _ HI n) as [t Ht]; [eauto|].
    exists t. split_and!; [done| |].
    + apply (inv_started _ _ _ HI _ _ Ht). eauto.
    + apply (inv_done _ _ _ HI _ _ Ht). eauto.
  - rewrite <- (size_list_to_set (C := gset string) (received (tr s))) by done.
    apply subseteq_size. intros n Hn. rewrite elem_of_list_to_set. by apply Hall.
  - rewrite <- (size_list_to_set (C := gset string)) by (by apply NoDup_filter).
    f_equal. apply set_eq. intros n.
    rewrite elem_of_list_to_set, list_elem_of_filter. split; [tauto|]. auto.
  - intros n t d Ht Hdn Hin. by eapply done_deps_started.
  - intros n d Hok Hrtc. by eapply dep_ok_closure.
Qed.

(** An instance: the run of b and its dependency a, with [b] selected. *)
Lemma drains_until_selection_received_witness :
  ∃ s, run (ext_ok fetch_none []) (cfg_ex 2 ["x86_64"] ∅)
           ([LMain; LMain; LTask "b"; LTask "b"] ++ whole "a" 0
              ++ replicate 7 (LTask "b") ++ [LMain; LMain; LMain])
           (init (ext_ok fetch_none []) (tasks_ex [("a", []); ("b", ["a"])]) {["b"]} ∅)
       = Some s ∧
       {["b"]} = list_to_set (C := gset string) ["b"] ∧
       size ({["b"]} : gset string) ≤ length (received (tr s)) ∧
       length (filter (λ n, n ∈ ({["b"]} : gset string)) (received (tr s)))
         = size ({["b"]} : gset string).
Proof.
  destruct (run (ext_ok fetch_none []) (cfg_ex 2 ["x86_64"] ∅)
              ([LMain; LMain; LTask "b"; LTask "b"] ++ whole "a" 0
                 ++ replicate 7 (LTask "b") ++ [LMain; LMain; LMain])
              (init (ext_ok fetch_none []) (tasks_ex [("a", []); ("b", ["a"])])
                    {["b"]} ∅))
    as [s|] eqn:Hrun; [|by vm_compute in Hrun].
  exists s. split; [done|].
  pose proof (run_reachable _ _ _ _ _ Hrun) as Hreach.
  assert (mpc s = MReturn None) as Hret.
  { vm_compute in Hrun. injection Hrun as <-. by vm_compute. }
  destruct (drains_until_selection_received (ext_ok fetch_none [])
              (cfg_ex 2 ["x86_64"] ∅) (tasks_ex [("a", []); ("b", ["a"])]) ["b"]
              {["b"]} ∅ s None)
    as (Hsel & _ & _ & Hle & Hexact & _).
  - apply ranges_all_ext_ok.
  - table_tac.
  - table_tac.
  - discriminate.
  - by vm_compute.
  - exact Hreach.
  - exact Hret.
  - split_and!; [exact Hsel | exact Hle | exact Hexact].
Defined.

(** ** Cancellation *)


(** Runs a computation of the build step on an arbitrary world, by cases on
    every answer of the collaborators, and names the events it adds. *)
Ltac run_world :=
  unfold buildArch, pkgSourceDir, newRunner, logs, close_build, logf, call, ask, emit,
    mbind, M_bind, mret, M_ret;
  cbn [fs trace fst snd];
  repeat (match goal with
          | |- context [match ?x with _ => _ end] =>
              lazymatch x with
              | context [match _ with _ => _ end] => fail
              | _ => destruct x eqn:?
              end
          end; cbn [fs trace fst snd]);
  (eexists; split;
    [first [rewrite <- ?app_assoc; reflexivity | symmetry; apply app_nil_r]|]).


(** Two builds under way when the context is cancelled, both past the
    check of buildArch: the driver of each is run all the same, both
    builds succeed, and both drivers are closed with the outer context. *)
Lemma builds_in_flight_not_stopped :
  ∃ s ta tb,
    run (ext_ok fetch_none []) (cfg_ex 2 ["x86_64"] ∅)
        ([LMain; LMain; LMain] ++ replicate 3 (LTask "a") ++ replicate 3 (LTask "b")
           ++ [LBuildCancel "a" 1 canceled; LBuildCancel "b" 1 canceled])
        (init (ext_ok fetch_none []) (tasks_ex [("a", []); ("b", [])]) {["a"; "b"]} ∅)
      = Some s ∧
    ctx s = Some canceled ∧
    tasks s !! "a" = Some ta ∧ err ta = None ∧
    tasks s !! "b" = Some tb ∧ err tb = None ∧
    let oa := build_opts (ext_ok fetch_none []) (cfg_ex 2 ["x86_64"] ∅) (task_ex "a" [])
                         "x86_64" "./a" "2024-01-01T00:00:00Z" in
    let ob := build_opts (ext_ok fetch_none []) (cfg_ex 2 ["x86_64"] ∅) (task_ex "b" [])
                         "x86_64" "./b" "2024-01-01T00:00:00Z" in
    EvBuildPackage oa ∈ tr s ∧ EvBuildClose oa true ∈ tr s ∧
    EvBuildPackage ob ∈ tr s ∧ EvBuildClose ob true ∈ tr s.
Proof.
  destruct (run (ext_ok fetch_none []) (cfg_ex 2 ["x86_64"] ∅)
              ([LMain; LMain; LMain] ++ replicate 3 (LTask "a")
                 ++ replicate 3 (LTask "b")
                 ++ [LBuildCancel "a" 1 canceled; LBuildCancel "b" 1 canceled])
              (init (ext_ok fetch_none []) (tasks_ex [("a", []); ("b", [])])
                    {["a"; "b"]} ∅))
    as [s|] eqn:Hrun; [|by vm_compute in Hrun].
  vm_compute in Hrun. injection Hrun as <-.
  match goal with |- ∃ s ta tb, Some ?s0 = Some s ∧ _ =>
    destruct (tasks s0 !! "a") as [ta|] eqn:Hta; [|by vm_compute in Hta];
    destruct (tasks s0 !! "b") as [tb|] eqn:Htb; [|by vm_compute in Htb];
    exists s0, ta, tb
  end.
  split; [reflexivity|]. split; [reflexivity|]. split; [exact Hta|].
  split; [vm_compute in Hta; by injection Hta as <-|]. split; [exact Htb|].
  split; [vm_compute in Htb; by injection Htb as <-|].
  split_and!; apply list_elem_of_In; vm_compute; tauto.
Qed.






(** ** The progress counter *)

(** C6 at the input where the code departs from it: b depends on a and
    only b is selected. The completion of a is consumed first; it is not an
    error and it is the first completion, so one non-error completion has
    been consumed, but the line says 0 of 1: the counter is computed from
    the size of the outstanding set, which the completion of a task outside
    the selection does not shrink. *)
Lemma progress_counter_ignores_dependency :
  (λ s, info_lines (tr s)) <$>
    run (ext_ok fetch_none []) (cfg_ex 2 ["x86_64"] ∅)
        ([LMain; LMain; LTask "b"; LTask "b"] ++ whole "a" 0
           ++ replicate 7 (LTask "b") ++ [LMain; LMain; LMain])
        (init (ext_ok fetch_none []) (tasks_ex [("a", []); ("b", ["a"])]) {["b"]} ∅)
  = Some ["Building a"; "Generating apk index from packages in packages/x86_64";
          "Building b"; "Generating apk index from packages in packages/x86_64";
          "Finished building a (0/1)"; "Finished building b (1/1)"].
Proof. by vm_compute. Qed.

(** * Further properties of the code *)

(** ** The index probe *)

(** Without a destination repository the probe cannot fail and nothing is
    ever taken for published: no fetch is made, every stored set is empty,
    and the lookup of build misses for every architecture and artifact. *)
Theorem no_destination_nothing_published (ext : Extern) (cfg : global)
    (order : list string) :
  dst cfg = "" →
  ∃ ex, index_probe ext cfg order ∅ = inr ex ∧
        (∀ k set, ex !! k = Some set → set = ∅) ∧
        ∀ arch apk, published (with_exists cfg ex) arch apk = false.
Proof.
  intros Hdst.
  assert (G : ∀ acc, (∀ k set, acc !! k = Some set → set = ∅) →
            ∃ ex, index_probe ext cfg order acc = inr ex ∧
                  ∀ k set, ex !! k = Some set → set = ∅).
  { induction order as [|arch rest IH]; intros acc Hacc; cbn [index_probe].
    - eauto.
    - unfold fetchIndex. rewrite Hdst. cbn [String.eqb].
      apply IH. intros k set. rewrite lookup_insert. case_decide; [|by apply Hacc].
      by intros [= <-]. }
  destruct (G ∅) as (ex & Hex & Hempty).
  { intros k set. by rewrite lookup_empty. }
  exists ex. split_and!; [done | done |].
  intros arch apk. unfold published. cbn [exists_ with_exists].
  apply bool_decide_eq_false_2.
  destruct (ex !! arch) as [set|] eqn:Hl; cbn.
  - rewrite (Hempty _ _ Hl). apply not_elem_of_empty.
  - apply not_elem_of_empty.
Qed.

Lemma no_destination_nothing_published_witness :
  ∃ ex, index_probe (ext_ok fetch_d []) (cfg_ex 2 ["x86_64"; "aarch64"] ∅)
                    ["x86_64"; "aarch64"] ∅ = inr ex ∧
        published (with_exists (cfg_ex 2 ["x86_64"; "aarch64"] ∅) ex)
                  "x86_64" "d-1.0-r0.apk" = false.
Proof.
  destruct (no_destination_nothing_published (ext_ok fetch_d [])
              (cfg_ex 2 ["x86_64"; "aarch64"] ∅) ["x86_64"; "aarch64"] eq_refl)
    as (ex & Hex & _ & Hpub).
  exists ex. split; [exact Hex | apply Hpub].
Defined.

(** The probe fails exactly when the fetch of one of the architectures
    fails: one unreadable index is fatal, whatever the others give. *)
Theorem probe_fails_iff_a_fetch_fails (ext : Extern) (cfg : global)
    (order : list string) (acc : gmap string (gset string)) :
  (∃ e, index_probe ext cfg order acc = inl e) ↔
  (∃ arch e, arch ∈ order ∧ fetchIndex ext (dst cfg) arch = inl e).
Proof.
  revert acc. induction order as [|arch rest IH]; intros acc; cbn [index_probe].
  - split; [by intros [e ?]|]. intros (a & e & Hin & _). by apply elem_of_nil in Hin.
  - destruct (fetchIndex ext (dst cfg) arch) as [e0|set] eqn:Hf.
    + split; [|eauto]. intros _. exists arch, e0. split; [apply list_elem_of_here | done].
    + rewrite IH. split.
      * intros (a & e & Hin & He). exists a, e. split; [by apply list_elem_of_further | done].
      * intros (a & e & [->|Hin]%elem_of_cons & He); [congruence|]. eauto.
Qed.

(** A successful probe stores one entry for each APK architecture name of
    the list and no other; when two architectures of the list share their
    APK name, the set fetched for the later one is the one that stays. *)
Theorem probe_keys_are_apk_names (ext : Extern) (cfg : global)
    (order : list string) (ex : gmap string (gset string)) :
  index_probe ext cfg order ∅ = inr ex →
  (∀ k, is_Some (ex !! k) ↔ ∃ arch, arch ∈ order ∧ ToAPK ext arch = k) ∧
  (∀ pre arch post,
     order = pre ++ arch :: post →
     (∀ later, later ∈ post → ToAPK ext later ≠ ToAPK ext arch) →
     ∃ set, fetchIndex ext (dst cfg) arch = inr set ∧ ex !! ToAPK ext arch = Some set).
Proof.
  assert (G : ∀ l acc ex',
    index_probe ext cfg l acc = inr ex' →
    (∀ k, is_Some (ex' !! k) ↔
          is_Some (acc !! k) ∨ ∃ arch, arch ∈ l ∧ ToAPK ext arch = k) ∧
    (∀ k, (∀ arch, arch ∈ l → ToAPK ext arch ≠ k) → ex' !! k = acc !! k)).
  { induction l as [|arch rest IH]; intros acc ex' Hp; cbn [index_probe] in Hp.
    - simplify_eq. split; [|done]. intros k. split; [auto|].
      intros [?|(a & Hin & _)]; [done|]. by apply elem_of_nil in Hin.
    - destruct (fetchIndex ext (dst cfg) arch) as [e0|set]; [done|].
      destruct (IH _ _ Hp) as [Hk Hsame]. split.
      + intros k. rewrite Hk, lookup_insert. split.
        * intros [Hs|(a & Hin & Ha)].
          -- case_decide; [|by left]. right. exists arch.
             split; [apply list_elem_of_here | done].
          -- right. exists a. split; [by apply list_elem_of_further | done].
        * intros [Hs|(a & [->|Hin]%elem_of_cons & Ha)].
          -- left. case_decide; eauto.
          -- left. rewrite decide_True by done. eauto.
          -- right. eauto.
      + intros k Hno. rewrite Hsame.
        * rewrite lookup_insert_ne; [done|]. apply Hno, list_elem_of_here.
        * intros a Hin. apply Hno. by apply list_elem_of_further. }
  intros Hp. split.
  - intros k. destruct (G _ _ _ Hp) as [Hk _]. rewrite Hk, lookup_empty.
    split; [intros [[? ?]|?]; done | auto].
  - intros pre arch post -> Hlater.
    revert Hp. generalize (∅ : gmap string (gset string)).
    induction pre as [|a pre IH]; intros acc Hp; cbn [app index_probe] in Hp.
    + destruct (fetchIndex ext (dst cfg) arch) as [e0|set]; [done|].
      exists set. split; [done|].
      destruct (G _ _ _ Hp) as [_ Hsame]. rewrite Hsame by done.
      apply lookup_insert_eq.
    + destruct (fetchIndex ext (dst cfg) a) as [e0|set]; [done|]. eauto.
Qed.

Lemma probe_keys_are_apk_names_witness :
  ∃ ex, index_probe (ext_ok fetch_d []) (cfg_remote 2 ["amd64"; "aarch64"] "https://r")
                    ["amd64"; "aarch64"] ∅ = inr ex ∧
        (is_Some (ex !! "x86_64") ↔
         ∃ arch, arch ∈ ["amd64"; "aarch64"] ∧ apko_ToAPK arch = "x86_64").
Proof.
  destruct (index_probe (ext_ok fetch_d []) (cfg_remote 2 ["amd64"; "aarch64"] "https://r")
              ["amd64"; "aarch64"] ∅) as [e|ex] eqn:Hp; [by vm_compute in Hp|].
  exists ex. split; [reflexivity|].
  apply (probe_keys_are_apk_names _ _ _ _ Hp).
Defined.

(** ** Task construction *)

Lemma ensure_task_ok Config n ts ts' :
  ensure_task Config n ts = inr ts' →
  closed_graph ts → fresh_tasks ts →
  closed_graph ts' ∧ fresh_tasks ts' ∧ is_Some (ts' !! n) ∧
  (∀ k, is_Some (ts !! k) → is_Some (ts' !! k)).
Proof.
  unfold ensure_task. intros He Hg Hf.
  destruct (ts !! n) as [t|] eqn:Hn.
  - simplify_eq. rewrite Hn. eauto.
  - unfold newTask in He. destruct (Config n) as [|c cs]; [done|].
    destruct (String.eqb n (Name (Pkg c))); [|done]. simplify_eq.
    assert (Hmono : ∀ k, is_Some (ts !! k) →
              is_Some (<[n := mkTask n c None [] false false false]> ts !! k)).
    { intros k Hk. rewrite lookup_insert. case_decide; eauto. }
    split_and!; [| |rewrite lookup_insert_eq; eauto|done].
    + intros k t. rewrite lookup_insert. case_decide.
      * intros [= <-]. cbn. split; [done|]. intros d Hd. by apply elem_of_nil in Hd.
      * intros Hk. destruct (Hg _ _ Hk) as [? Hd]. split; [done|]. eauto.
    + intros k t. rewrite lookup_insert. case_decide; [by intros [= <-]|]. apply Hf.
Qed.

Lemma add_dep_ok d n ts :
  closed_graph ts → fresh_tasks ts → is_Some (ts !! d) →
  closed_graph (alter (add_dep d) n ts) ∧ fresh_tasks (alter (add_dep d) n ts) ∧
  (∀ k, is_Some (ts !! k) → is_Some (alter (add_dep d) n ts !! k)).
Proof.
  intros Hg Hf Hd.
  assert (Hmono : ∀ k, is_Some (ts !! k) → is_Some (alter (add_dep d) n ts !! k)).
  { intros k [t Hk]. rewrite lookup_alter. case_decide; subst; rewrite Hk; cbn; eauto. }
  split_and!; [| |done].
  - intros k t. rewrite lookup_alter. case_decide; subst.
    + destruct (ts !! k) as [t0|] eqn:Hk; [|done]. cbn. intros [= <-].
      destruct (Hg _ _ Hk) as [Hp Hdeps]. split; [done|]. cbn.
      intros x. case_bool_decide; [by eauto|].
      rewrite elem_of_app, list_elem_of_singleton. intros [Hx| ->]; eauto.
    + intros Hk. destruct (Hg _ _ Hk) as [? Hdeps]. split; [done|]. eauto.
  - intros k t. rewrite lookup_alter. case_decide; subst; [|apply Hf].
    destruct (ts !! k) as [t0|] eqn:Hk; [|done]. cbn. intros [= <-]. cbn.
    exact (Hf k t0 Hk).
Qed.

Lemma wire_targets_ok Config n targets ts ts' :
  wire_targets Config n targets ts = inr ts' →
  closed_graph ts → fresh_tasks ts →
  closed_graph ts' ∧ fresh_tasks ts' ∧ (∀ k, is_Some (ts !! k) → is_Some (ts' !! k)).
Proof.
  revert ts. induction targets as [|target rest IH]; intros ts Hw Hg Hf; cbn in Hw.
  - by simplify_eq.
  - destruct (ensure_task Config (before_colon target) ts) as [e|ts1] eqn:He; [done|].
    destruct (ensure_task_ok _ _ _ _ He Hg Hf) as (Hg1 & Hf1 & Hd & Hm1).
    destruct (add_dep_ok (before_colon target) n ts1 Hg1 Hf1 Hd) as (Hg2 & Hf2 & Hm2).
    destruct (IH _ Hw Hg2 Hf2) as (Hg3 & Hf3 & Hm3). eauto 10.
Qed.

Lemma wire_keys_ok Config n m ts ts' :
  wire_keys Config n m ts = inr ts' →
  closed_graph ts → fresh_tasks ts →
  closed_graph ts' ∧ fresh_tasks ts' ∧ (∀ k, is_Some (ts !! k) → is_Some (ts' !! k)).
Proof.
  revert ts. induction m as [|[k v] rest IH]; intros ts Hw Hg Hf; cbn in Hw.
  - by simplify_eq.
  - destruct (String.prefix (n +:+ ":") k); [|by eauto].
    destruct (wire_targets Config n v ts) as [e|ts1] eqn:Ht; [done|].
    destruct (wire_targets_ok _ _ _ _ _ Ht Hg Hf) as (Hg1 & Hf1 & Hm1).
    destruct (IH _ Hw Hg1 Hf1) as (Hg2 & Hf2 & Hm2). eauto 10.
Qed.

(** The task table that buildAll builds from the package list and the
    adjacency map is the kind of table the scheduler is proved on: every
    task is filed under its package name, every dependency wired in is
    itself a task of the table, no task is started or done, and every
    package of the list has its task. *)
Theorem make_tasks_closed (Config : string → list Configuration)
    (pkgs : list string) (m : list (string * list string)) (ts : gmap string task) :
  make_tasks Config pkgs m ∅ = inr ts →
  closed_graph ts ∧ fresh_tasks ts ∧ ∀ p, p ∈ pkgs → is_Some (ts !! p).
Proof.
  assert (G : ∀ acc,
    make_tasks Config pkgs m acc = inr ts → closed_graph acc → fresh_tasks acc →
    closed_graph ts ∧ fresh_tasks ts ∧
    (∀ k, is_Some (acc !! k) → is_Some (ts !! k)) ∧
    ∀ p, p ∈ pkgs → is_Some (ts !! p)).
  { induction pkgs as [|p rest IH]; intros acc Hm Hg Hf; cbn in Hm.
    - simplify_eq. split_and!; try done. intros p Hp. by apply elem_of_nil in Hp.
    - destruct (ensure_task Config p acc) as [e|ts1] eqn:He; [done|].
      destruct (wire_keys Config p m ts1) as [e|ts2] eqn:Hw; [done|].
      destruct (ensure_task_ok _ _ _ _ He Hg Hf) as (Hg1 & Hf1 & Hp1 & Hm1).
      destruct (wire_keys_ok _ _ _ _ _ Hw Hg1 Hf1) as (Hg2 & Hf2 & Hm2).
      destruct (IH _ Hm Hg2 Hf2) as (Hg3 & Hf3 & Hm3 & Hall).
      split_and!; try done; [by eauto|].
      intros q [->|Hq]%elem_of_cons; eauto. }
  intros Hm. destruct (G ∅ Hm) as (Hg & Hf & _ & Hall); [| |done].
  - intros k t. by rewrite lookup_empty.
  - intros k t. by rewrite lookup_empty.
Qed.

Lemma make_tasks_closed_witness :
  ∃ ts, make_tasks (λ n, [mkConfiguration (n +:+ ".yaml") (mkPackage n "1.0" 0%N []) []])
                   ["a"; "b"] [("b:1.0", ["a:1.0"]); ("a:1.0", [])] ∅ = inr ts ∧
        (deps <$> ts !! "b") = Some ["a"] ∧ closed_graph ts.
Proof.
  destruct (make_tasks
              (λ n, [mkConfiguration (n +:+ ".yaml") (mkPackage n "1.0" 0%N []) []])
              ["a"; "b"] [("b:1.0", ["a:1.0"]); ("a:1.0", [])] ∅)
    as [e|ts] eqn:Hm; [by vm_compute in Hm|].
  exists ts. split; [reflexivity|].
  split; [|by apply (make_tasks_closed _ _ _ _ Hm)].
  vm_compute in Hm. injection Hm as <-. by vm_compute.
Defined.


(** ** Selection of the targets *)

(** The selection fails in exactly two cases: the task table is empty, or,
    with arguments given, one of them names no task; with no argument it
    selects every task. *)
Theorem select_todos_fails_iff (ts : gmap string task) (args : list string) :
  ((∃ e, select_todos ts args = inl e) ↔
   ts = ∅ ∨ ∃ arg, arg ∈ args ∧ ts !! arg = None) ∧
  (ts ≠ ∅ → select_todos ts [] = inr (dom ts)).
Proof.
  unfold select_todos.
  destruct (size ts =? 0) eqn:Hsz.
  - apply Nat.eqb_eq, map_size_empty_iff in Hsz. subst ts.
    split; [|done]. split; eauto.
  - assert (ts ≠ ∅) as Hne.
    { intros ->. by rewrite map_size_empty in Hsz. }
    split; [|done].
    destruct (length args =? 0) eqn:Hlen.
    + destruct args; [|done]. split; [by intros [e ?]|].
      intros [?|(arg & Hin & _)]; [done|]. by apply elem_of_nil in Hin.
    + clear Hlen. generalize (∅ : gset string).
      induction args as [|arg l IH]; intros acc.
      * split; [by intros [e ?]|].
        intros [?|(arg & Hin & _)]; [done|]. by apply elem_of_nil in Hin.
      * destruct (ts !! arg) as [t|] eqn:Hl.
        -- rewrite IH. split.
           ++ intros [?|(x & Hin & Hx)]; [by left|]. right. exists x.
              split; [by apply list_elem_of_further | done].
           ++ intros [?|(x & [->|Hin]%elem_of_cons & Hx)]; [by left|congruence|].
              right. eauto.
        -- split; [|eauto]. intros _. right. exists arg.
           split; [apply list_elem_of_here | done].
Qed.

(** ** Starting a task *)

(** maybeStart is idempotent: a second call leaves the state of the first
    call as it is, so a task has one goroutine however many dependents
    start it. *)
Theorem maybeStart_idempotent (ext : Extern) (n : string) (s s1 : State) :
  maybeStart ext n s = Some s1 →
  maybeStart ext n s1 = Some s1 ∧
  ∃ t, tasks s1 !! n = Some t ∧ started t = true.
Proof.
  unfold maybeStart. intros H.
  destruct (tasks s !! n) as [t|] eqn:Ht; [|done]. cbn in H.
  destruct (started t) eqn:Hst.
  - simplify_eq. rewrite Ht. cbn. rewrite Hst. eauto.
  - simplify_eq. cbn. rewrite lookup_insert_eq. cbn. eauto.
Qed.

Lemma maybeStart_idempotent_witness :
  ∃ s1, maybeStart (ext_ok fetch_none []) "a"
          (init (ext_ok fetch_none []) (tasks_ex [("a", [])]) {["a"]} ∅) = Some s1 ∧
        maybeStart (ext_ok fetch_none []) "a" s1 = Some s1.
Proof.
  destruct (maybeStart (ext_ok fetch_none []) "a"
              (init (ext_ok fetch_none []) (tasks_ex [("a", [])]) {["a"]} ∅))
    as [s1|] eqn:Hm; [|by vm_compute in Hm].
  exists s1. split; [reflexivity|].
  by apply (maybeStart_idempotent _ _ _ _ Hm).
Defined.

(** ** The result of buildAll *)

(** With the context live to the end, buildAll returns nil exactly when no
    received task carries an error; otherwise it returns the join of the
    error list, one wrapped entry per failed task in the order of
    reception. *)
Theorem returns_nil_iff_no_failure (ext : Extern) (cfg : global)
    (tasks0 : gmap string task) (todos0 fs0 : gset string) (s s' : State)
    (r : option error) :
  ranges_all ext → closed_graph tasks0 → fresh_tasks tasks0 →
  reachable ext cfg (init ext tasks0 todos0 fs0) s →
  ctx s = None → step ext cfg LMain s = Some s' → mpc s' = MReturn r →
  r = errors_Join (reported s (received (tr s))) ∧
  (r = None ↔
   ∀ n t, n ∈ received (tr s) → tasks s !! n = Some t → err t = None).
Proof.
  intros Hranges Hg Hf Hr Hc Hstep Hret.
  pose proof (errs_reachable ext cfg todos0 Hranges tasks0 fs0 s Hg Hf Hr) as Herrs.
  assert (Hres : r = errors_Join (a_errs (agg s))).
  { cbn in Hstep. unfold main_step in Hstep.
    destruct (mpc s) as [[|n0 rest]| |r0] eqn:Hmpc.
    - simplify_eq; try done.
    - apply bind_Some in Hstep as (s1 & _ & Hs1). simplify_eq; try done.
    - destruct (size (a_todos (agg s)) =? 0).
      + rewrite Hc in Hstep. unfold finish, mbind, M_bind, mret, M_ret in Hstep.
        destruct (if negb (a_skipped (agg s) =? 0)
                  then logf Info (skipped_line (a_skipped (agg s))) else λ w, (tt, w))
          as [u w1] in Hstep.
        injection Hstep as <-. cbn in Hret. by injection Hret as <-.
      + destruct (donech s) as [|n0 q]; [done|].
        apply bind_Some in Hstep as (t0 & _ & Hs1).
        destruct (ingest _ _ _ _) as [a' w']. injection Hs1 as <-.
        cbn in Hret. congruence.
    - done. }
  rewrite Herrs in Hres. split; [done|].
  rewrite Hres. unfold reported. generalize (received (tr s)) as l.
  induction l as [|x l IH].
  - split; [|done]. intros _ n t Hin. by apply elem_of_nil in Hin.
  - cbn [omap list_omap]. unfold report at 1.
    destruct (tasks s !! x) as [tx|] eqn:Hx; cbn.
    + destruct (err tx) as [ex|] eqn:Hex; cbn.
      * split; [done|]. intros Hall.
        specialize (Hall x tx (list_elem_of_here _ _) Hx). congruence.
      * rewrite IH. split.
        -- intros Hall n t [->|Hin]%elem_of_cons Ht; [congruence|]. eauto.
        -- intros Hall n t Hin Ht. apply (Hall n t); [by apply list_elem_of_further|done].
    + rewrite IH. split.
      * intros Hall n t [->|Hin]%elem_of_cons Ht; [congruence|]. eauto.
      * intros Hall n t Hin Ht. apply (Hall n t); [by apply list_elem_of_further|done].
Qed.

Lemma returns_nil_iff_no_failure_witness :
  ∃ s s', run (ext_ok fetch_none []) (cfg_ex 2 ["x86_64"] ∅)
              ([LMain; LMain] ++ whole "a" 0 ++ [LMain])
              (init (ext_ok fetch_none []) (tasks_ex [("a", [])]) {["a"]} ∅) = Some s ∧
          step (ext_ok fetch_none []) (cfg_ex 2 ["x86_64"] ∅) LMain s = Some s' ∧
          mpc s' = MReturn None.
Proof.
  destruct (run (ext_ok fetch_none []) (cfg_ex 2 ["x86_64"] ∅)
              ([LMain; LMain] ++ whole "a" 0 ++ [LMain])
              (init (ext_ok fetch_none []) (tasks_ex [("a", [])]) {["a"]} ∅))
    as [s|] eqn:Hrun; [|by vm_compute in Hrun].
  pose proof (run_reachable _ _ _ _ _ Hrun) as Hreach.
  vm_compute in Hrun. injection Hrun as <-.
  match goal with
  | |- ∃ s s', Some ?s0 = Some s ∧ _ =>
      destruct (step (ext_ok fetch_none []) (cfg_ex 2 ["x86_64"] ∅) LMain s0)
        as [s'|] eqn:Hstep; [|by vm_compute in Hstep];
      assert (Hctx : ctx s0 = None) by reflexivity;
      assert (Hrep : reported s0 (received (tr s0)) = []) by (by vm_compute);
      exists s0, s'
  end.
  split; [reflexivity|]. split; [exact Hstep|].
  assert (Hret : ∃ r, mpc s' = MReturn r).
  { vm_compute in Hstep. injection Hstep as <-. by eexists. }
  destruct Hret as [r Hret].
  destruct (returns_nil_iff_no_failure (ext_ok fetch_none []) (cfg_ex 2 ["x86_64"] ∅)
              (tasks_ex [("a", [])]) {["a"]} ∅ _ s' r
              (ranges_all_ext_ok _ _)
              (proj1 (table_ok_graph (tasks_ex [("a", [])]) eq_refl))
              (proj2 (table_ok_graph (tasks_ex [("a", [])]) eq_refl))
              Hreach Hctx Hstep Hret) as (Hr & _).
  rewrite Hret, Hr, Hrep. reflexivity.
Defined.

(** ** Dependency order *)

Lemma deps_kept (ext : Extern) (cfg : global) (tasks0 : gmap string task)
    (todos0 fs0 : gset string) (s : State) (n : string) (t0 : task) :
  ranges_all ext → closed_graph tasks0 → fresh_tasks tasks0 →
  reachable ext cfg (init ext tasks0 todos0 fs0) s →
  tasks0 !! n = Some t0 →
  ∃ t, tasks s !! n = Some t ∧ deps t = deps t0.
Proof.
  intros Hranges Hg Hf Hr Hn. induction Hr as [|s l s' Hr IH Hstep]; [eauto|].
  destruct IH as (t & Ht & Hd).
  pose proof (Inv_reachable ext cfg todos0 Hranges tasks0 fs0 s Hg Hf Hr) as HI.
  destruct (step_stable ext cfg todos0 _ _ _ HI Hstep _ _ Ht) as (t' & Ht' & Hd' & _).
  exists t'. split; [done | congruence].
Qed.

(** In every execution, the send on jobch of a task comes after each of
    its dependencies was marked done: in the trace, every acquisition of a
    permit by a task is preceded by the done event of every dependency. *)
Theorem build_after_dependencies (ext : Extern) (cfg : global)
    (tasks0 : gmap string task) (todos0 fs0 : gset string) (s : State)
    (n d : string) (t0 : task) (pre post : list Event) :
  ranges_all ext → closed_graph tasks0 → fresh_tasks tasks0 →
  reachable ext cfg (init ext tasks0 todos0 fs0) s →
  tasks0 !! n = Some t0 → d ∈ deps t0 →
  tr s = pre ++ EvAcquire n :: post →
  EvDone d ∈ pre.
Proof.
  intros Hranges Hg Hf Hr Hn Hd. revert pre post.
  induction Hr as [|s l s' Hr IH Hstep]; intros pre post Heq.
  - by destruct pre.
  - pose proof (Inv_reachable ext cfg todos0 Hranges tasks0 fs0 s Hg Hf Hr) as HI.
    destruct (step_trace ext cfg todos0 _ _ _ HI Hstep) as (evs & Htr & Hacq & _).
    rewrite Htr in Heq.
    assert (Hnew : EvAcquire n ∈ evs → EvDone d ∈ tr s).
    { intros Hin. destruct (Hacq _ Hin) as [Hp _].
      destruct (deps_kept ext cfg tasks0 todos0 fs0 s n t0 Hranges Hg Hf Hr Hn)
        as (t & Ht & Hdeps).
      pose proof (inv_pc _ _ _ HI _ _ _ Ht Hp) as [_ Hok]. cbn in Hok.
      destruct (Hok d) as (td & Htd & Hdone & _); [by rewrite Hdeps|].
      apply (inv_done_ev _ _ _ HI). by apply (inv_done _ _ _ HI _ _ Htd). }
    apply app_eq_app in Heq as [k [[E1 E2]|[E1 E2]]].
    + destruct k as [|x k]; cbn in E2.
      * rewrite app_nil_r in E1. subst pre. apply Hnew.
        rewrite <- E2. apply list_elem_of_here.
      * injection E2 as <- E2. by apply (IH pre k).
    + subst pre. rewrite elem_of_app. left. apply Hnew.
      rewrite E2, elem_of_app. right. apply list_elem_of_here.
Qed.

Lemma build_after_dependencies_witness :
  ∃ s pre post,
    run (ext_ok fetch_none []) (cfg_ex 2 ["x86_64"] ∅)
        ([LMain; LMain; LTask "b"; LTask "b"] ++ whole "a" 0 ++ replicate 3 (LTask "b"))
        (init (ext_ok fetch_none []) (tasks_ex [("a", []); ("b", ["a"])]) {["b"]} ∅)
      = Some s ∧
    tr s = pre ++ EvAcquire "b" :: post ∧ EvDone "a" ∈ pre.
Proof.
  destruct (run (ext_ok fetch_none []) (cfg_ex 2 ["x86_64"] ∅)
              ([LMain; LMain; LTask "b"; LTask "b"] ++ whole "a" 0
                 ++ replicate 3 (LTask "b"))
              (init (ext_ok fetch_none []) (tasks_ex [("a", []); ("b", ["a"])])
                    {["b"]} ∅))
    as [s|] eqn:Hrun; [|by vm_compute in Hrun].
  pose proof (run_reachable _ _ _ _ _ Hrun) as Hreach.
  assert (Hsplit : ∃ pre post, tr s = pre ++ EvAcquire "b" :: post).
  { apply list_elem_of_split. vm_compute in Hrun. injection Hrun as <-.
    apply list_elem_of_In. vm_compute. tauto. }
  destruct Hsplit as (pre & post & Heq).
  exists s, pre, post. split; [reflexivity|]. split; [exact Heq|].
  exact (build_after_dependencies (ext_ok fetch_none []) (cfg_ex 2 ["x86_64"] ∅)
           (tasks_ex [("a", []); ("b", ["a"])]) {["b"]} ∅ s "b" "a" (task_ex "b" ["a"])
           pre post (ranges_all_ext_ok _ _)
           (proj1 (table_ok_graph (tasks_ex [("a", []); ("b", ["a"])]) eq_refl))
           (proj2 (table_ok_graph (tasks_ex [("a", []); ("b", ["a"])]) eq_refl))
           Hreach eq_refl (list_elem_of_here _ _) Heq).
Defined.

(** ** The aggregation log *)

(** When the completions consumed by the loop are distinct tasks of the
    outstanding set, as they are when nothing outside the selection is
    started, the lines it logs are the ones the counters stand for: a
    failure line counts the failures so far, a finished line the
    completions so far that are not failures, and the skipped packages
    since the last finished line are summed up just before the next. *)
Theorem drain_lines_on_selection (count nok : nat) (ts : list task) (a : Agg) (w : World) :
  NoDup (pkg <$> ts) →
  (∀ t, t ∈ ts → pkg t ∈ a_todos a) →
  count = size (a_todos a) + length (a_errs a) + nok →
  trace (drain count ts a w).2
  = trace w ++ expected_lines count (length (a_errs a)) nok (a_skipped a) ts.
Proof.
  revert a w nok. induction ts as [|t rest IH]; intros a w nok Hnd Hin Hcount.
  - cbn. by rewrite app_nil_r.
  - apply NoDup_cons in Hnd as [Hfresh Hnd].
    assert (pkg t ∈ a_todos a) as Ht by (apply Hin, list_elem_of_here).
    assert (Hsize : size (a_todos a) = S (size (a_todos a ∖ {[pkg t]}))).
    { rewrite (union_difference_L {[pkg t]} (a_todos a)) at 1
        by (by apply singleton_subseteq_l).
      rewrite size_union by (apply disjoint_difference_r1; done).
      by rewrite size_singleton. }
    assert (Hrest : ∀ t', t' ∈ rest → pkg t' ∈ a_todos a ∖ {[pkg t]}).
    { intros t' Ht'. apply elem_of_difference. split.
      - by apply Hin, list_elem_of_further.
      - rewrite elem_of_singleton. intros Heq. apply Hfresh.
        rewrite <- Heq. by apply list_elem_of_fmap_2. }
    cbn [drain]. rewrite Hsize. cbn [Nat.eqb].
    unfold mbind, M_bind. unfold ingest at 1.
    cbn [expected_lines].
    destruct (err t) as [e|] eqn:Herr.
    + unfold mbind, M_bind, logf, emit, mret, M_ret.
      rewrite (IH _ _ nok); [| done | done |].
      * cbn [trace a_errs a_skipped]. rewrite length_app. cbn [length].
        rewrite Nat.add_1_r, <- app_assoc. done.
      * cbn [a_todos a_errs]. rewrite length_app. cbn [length]. lia.
    + destruct (skipped t) eqn:Hsk.
      * unfold mret, M_ret. rewrite (IH _ _ (S nok)); [done | done | done |].
        cbn [a_todos a_errs]. lia.
      * unfold mbind, M_bind, logf, emit, mret, M_ret.
        assert (Hk : (Z.of_nat count
                      - (Z.of_nat (size (a_todos a ∖ {[pkg t]}))
                         + Z.of_nat (length (a_errs a))))%Z = Z.of_nat (S nok)) by lia.
        rewrite Hk.
        destruct (a_skipped a =? 0) eqn:Hz; cbn [negb].
        -- rewrite (IH _ _ (S nok)); [| done | done | cbn [a_todos a_errs]; lia].
           cbn [trace a_errs a_skipped]. by rewrite <- app_assoc.
        -- rewrite (IH _ _ (S nok)); [| done | done | cbn [a_todos a_errs]; lia].
           cbn [trace a_errs a_skipped]. by rewrite <- !app_assoc.
Qed.

Lemma drain_lines_on_selection_witness :
  trace (drain 2 [task_ex "a" []; task_ex "b" []] (mkAgg {["a"; "b"]} [] 0) w_empty).2
  = [EvLog Info "Finished building a (1/2)"; EvLog Info "Finished building b (2/2)"].
Proof.
  rewrite (drain_lines_on_selection 2 0); [by vm_compute | | | by vm_compute].
  - apply (bool_decide_unpack _). by vm_compute.
  - intros t Ht.
    repeat (apply elem_of_cons in Ht as [->|Ht];
            [apply (bool_decide_unpack _); by vm_compute|]).
    by apply elem_of_nil in Ht.
Defined.

(** ** The build driver *)

(** The calls that buildArch makes to the build driver are, in this
    order, nothing at all, or build.New alone, which then failed, or
    build.New, BuildPackage and Close on the same options, the close with
    the outer context exactly when the context is cancelled by then. It
    returns nil only in the last case and has then printed nothing on
    standard output; when it prints, it returns the failure of the build
    wrapped under the name of the log file. *)
Theorem buildArch_driver_lifecycle (ext : Extern) (cfg : global) (c c' : option error)
    (t : task) (arch : string) (w : World) :
  ∃ evs, trace (buildArch ext cfg c c' t arch w).2 = trace w ++ evs ∧
    ((driver_calls evs = [] ∧ is_Some (buildArch ext cfg c c' t arch w).1) ∨
     (∃ o, driver_calls evs = [EvBuildNew o]
           ∧ is_Some (buildArch ext cfg c c' t arch w).1) ∨
     (∃ o, driver_calls evs
           = [EvBuildNew o; EvBuildPackage o;
              EvBuildClose o (bool_decide (is_Some c'))])) ∧
    ((buildArch ext cfg c c' t arch w).1 = None → stdout_of evs = []) ∧
    (stdout_of evs ≠ [] →
       ∃ e, (buildArch ext cfg c c' t arch w).1
            = Some (EWrap ("building package (see "
                             +:+ quote (Join ext [logdir (Join ext) (outDir cfg) arch;
                                                  pkgver (Pkg (config t))] +:+ ".log")
                             +:+ " for logs): ") e)).
Proof.
  run_world.
  all: unfold driver_calls, stdout_of;
    cbn [List.filter driver_call omap list_omap app fst].
  all: split_and!; try done; try (intros _; eauto).
  all: first [ left; split; [reflexivity | eauto]
             | right; left; eexists; split; [reflexivity | eauto]
             | right; right; eexists; reflexivity ].
Qed.

(** buildArch with a runner that is neither docker nor bubblewrap fails,
    whatever the collaborators answer, and never constructs a build
    driver. *)
Theorem unknown_runner_never_builds (ext : Extern) (cfg : global) (c c' : option error)
    (t : task) (arch : string) (w : World) :
  runner cfg ≠ "docker" → runner cfg ≠ "bubblewrap" →
  ∃ evs, trace (buildArch ext cfg c c' t arch w).2 = trace w ++ evs ∧
    is_Some (buildArch ext cfg c c' t arch w).1 ∧
    driver_news evs = 0.
Proof.
  intros Hd Hb.
  assert (Ed : String.eqb (runner cfg) "docker" = false) by by apply String.eqb_neq.
  assert (Eb : String.eqb (runner cfg) "bubblewrap" = false) by by apply String.eqb_neq.
  unfold buildArch, newRunner. rewrite Ed, Eb.
  run_world.
  all: unfold driver_news; cbn [List.filter length app]; split; [eauto | done].
Qed.

Lemma unknown_runner_never_builds_witness :
  let cfg := {| dryrun := false; jobs := 1; dir := "."; dst := ""; pipelineDir := "pipelines";
                runner := "qemu"; archs := ["x86_64"]; extraKeys := []; extraRepos := [];
                generateIndex := true; signingKey := "local-melange.rsa";
                namespace := "wolfi"; cacheSource := ""; cacheDir := "./melange-cache/";
                outDir := "packages"; exists_ := ∅ |} in
  ∃ evs, trace (buildArch (ext_ok fetch_none []) cfg None None (task_ex "a" []) "x86_64"
                  w_empty).2 = trace w_empty ++ evs ∧
    is_Some (buildArch (ext_ok fetch_none []) cfg None None (task_ex "a" []) "x86_64"
               w_empty).1 ∧
    driver_news evs = 0.
Proof.
  intros cfg.
  apply (unknown_runner_never_builds (ext_ok fetch_none []) cfg None None
           (task_ex "a" []) "x86_64" w_empty); discriminate.
Defined.

(** ** Dry runs *)

Lemma build_loop_dry (ext : Extern) (cfg : global) (c : nat → option error) (k : nat)
    (t : task) (l : list string) (w : World) :
  dryrun cfg = true →
  (build_loop ext cfg c k t l w).1 = None ∧ fs (build_loop ext cfg c k t l w).2 = fs w ∧
  ∃ evs, trace (build_loop ext cfg c k t l w).2 = trace w ++ evs
         ∧ forallb is_log evs = true.
Proof.
  intros Hdry. revert w. induction l as [|a rest IH]; intros w; cbn [build_loop].
  - split_and!; [done..|]. exists []. by rewrite app_nil_r.
  - rewrite Hdry. unfold logf, emit, mbind, M_bind.
    destruct (IH (mkWorld (fs w) (trace w ++
      [EvLog Info ("DRYRUN: would have built " +:+ outDir cfg +:+ "/" +:+ ToAPK ext a
                     +:+ "/" +:+ pkgver (Pkg (config t)) +:+ ".apk")])))
      as (E1 & E2 & evs & E3 & F).
    split_and!; [done..|]. eexists (_ :: evs). rewrite E3. cbn [trace].
    rewrite <- app_assoc. split; [reflexivity|]. cbn. done.
Qed.

Lemma index_loop_dry (ext : Extern) (cfg : global) (t : task)
    (l : list string) (w : World) :
  dryrun cfg = true →
  (index_loop ext cfg t l w).1 = None ∧ fs (index_loop ext cfg t l w).2 = fs w ∧
  ∃ evs, trace (index_loop ext cfg t l w).2 = trace w ++ evs ∧ forallb is_log evs = true.
Proof.
  intros Hdry. revert w. induction l as [|a rest IH]; intros w; cbn [index_loop].
  - split_and!; [done..|]. exists []. by rewrite app_nil_r.
  - rewrite Hdry. unfold logf, emit, mbind, M_bind.
    match goal with |- context [index_loop ext cfg t rest ?w1] =>
      destruct (IH w1) as (E1 & E2 & evs & E3 & F) end.
    split_and!; [done..|]. eexists (_ :: _ :: evs). rewrite E3. cbn [trace].
    rewrite <- !app_assoc. split; [reflexivity|]. cbn. done.
Qed.

(** In a dry run build returns nil, leaves the file system as it was and
    does nothing but log, whatever the state of the context: neither the
    build driver nor the index generator is reached. *)
Theorem dry_run_only_logs (ext : Extern) (cfg : global) (c : nat → option error)
    (t : task) (w : World) :
  dryrun cfg = true →
  (build ext cfg c t w).1.1 = None ∧
  fs (build ext cfg c t w).2 = fs w ∧
  ∃ evs, trace (build ext cfg c t w).2 = trace w ++ evs ∧ forallb is_log evs = true.
Proof.
  intros Hdry. unfold build, mbind, M_bind.
  pose proof (scan_archs_spec ext cfg t
                (filterArchs (archs cfg) (TargetArchitecture (Pkg (config t)))) ∅ ∅ w)
    as [Hfs _].
  destruct (only_scan_archs ext cfg is_log t
              (filterArchs (archs cfg) (TargetArchitecture (Pkg (config t)))) ∅ ∅
              (λ _, eq_refl) w) as (evs0 & Htr0 & F0).
  destruct (scan_archs ext cfg t _ ∅ ∅ w) as [[nb ni] w0]. cbn [fst snd] in *.
  destruct ((size nb =? 0) && (size ni =? 0)).
  { cbn. split_and!; [done..|]. eauto. }
  destruct (build_loop_dry ext cfg c 0 t
              (range_keys ext (SiteNeedsBuild (pkg t)) (elements nb)) w0 Hdry)
    as (R1 & Hfs1 & evs1 & Htr1 & F1).
  destruct (build_loop ext cfg c 0 t _ w0) as [r1 w1]. cbn [fst snd] in *. subst r1.
  destruct (negb (generateIndex cfg)).
  { cbn. split_and!; [done|by etrans|]. exists (evs0 ++ evs1).
    rewrite Htr1, Htr0, app_assoc, forallb_app, F0, F1. done. }
  destruct (index_loop_dry ext cfg t
              (range_keys ext (SiteNeedsIndex (pkg t)) (elements ni)) w1 Hdry)
    as (R2 & Hfs2 & evs2 & Htr2 & F2).
  destruct (index_loop ext cfg t _ w1) as [r2 w2]. cbn [fst snd] in *. subst r2.
  cbn. split_and!; [done|by rewrite Hfs2, Hfs1|]. exists (evs0 ++ evs1 ++ evs2).
  rewrite Htr2, Htr1, Htr0, <- !app_assoc, !forallb_app, F0, F1, F2. done.
Qed.

Lemma dry_run_only_logs_witness :
  let cfg := {| dryrun := true; jobs := 1; dir := "."; dst := ""; pipelineDir := "pipelines";
                runner := "docker"; archs := ["x86_64"]; extraKeys := []; extraRepos := [];
                generateIndex := true; signingKey := "local-melange.rsa";
                namespace := "wolfi"; cacheSource := ""; cacheDir := "./melange-cache/";
                outDir := "packages"; exists_ := ∅ |} in
  (build (ext_ok fetch_none []) cfg (λ _, Some canceled) (task_ex "a" []) w_empty).1.1 = None ∧
  fs (build (ext_ok fetch_none []) cfg (λ _, Some canceled) (task_ex "a" []) w_empty).2
    = fs w_empty ∧
  ∃ evs, trace (build (ext_ok fetch_none []) cfg (λ _, Some canceled) (task_ex "a" [])
                  w_empty).2 = trace w_empty ++ evs ∧ forallb is_log evs = true.
Proof.
  intros cfg.
  apply (dry_run_only_logs (ext_ok fetch_none []) cfg (λ _, Some canceled)
           (task_ex "a" []) w_empty).
  reflexivity.
Defined.

(** ** The index generator *)

Lemma only_buildArch_no_index (ext : Extern) (cfg : global) (c c' : option error)
    (t : task) (arch : string) :
  only (λ ev, negb (index_event ev)) (buildArch ext cfg c c' t arch).
Proof.
  unfold buildArch, pkgSourceDir, newRunner, logs, close_build, logf. only_tac.
Qed.

Lemma only_build_loop_no_index (ext : Extern) (cfg : global) (c : nat → option error)
    (k : nat) (t : task) (l : list string) :
  only (λ ev, negb (index_event ev)) (build_loop ext cfg c k t l).
Proof.
  revert k. induction l as [|arch rest IH]; intros k; cbn [build_loop]; unfold logf;
    only_tac.
  apply only_buildArch_no_index.
Qed.

(** When index generation is switched off, build never constructs an
    index and never generates one, whatever it builds. *)
Theorem no_index_when_switched_off (ext : Extern) (cfg : global)
    (c : nat → option error) (t : task) :
  generateIndex cfg = false →
  only (λ ev, negb (index_event ev)) (build ext cfg c t).
Proof.
  intros Hoff. unfold build. rewrite Hoff. cbn [negb]. only_tac.
  - by apply only_scan_archs.
  - apply only_build_loop_no_index.
Qed.

Lemma no_index_when_switched_off_witness :
  let cfg := {| dryrun := false; jobs := 1; dir := "."; dst := ""; pipelineDir := "pipelines";
                runner := "docker"; archs := ["x86_64"]; extraKeys := []; extraRepos := [];
                generateIndex := false; signingKey := "local-melange.rsa";
                namespace := "wolfi"; cacheSource := ""; cacheDir := "./melange-cache/";
                outDir := "packages"; exists_ := ∅ |} in
  only (λ ev, negb (index_event ev))
       (build (ext_ok fetch_none []) cfg (λ _, None) (task_ex "a" [])).
Proof.
  intros cfg.
  apply (no_index_when_switched_off (ext_ok fetch_none []) cfg (λ _, None)
           (task_ex "a" [])).
  reflexivity.
Defined.

(** The subpackage files handed to the index generator are exactly the
    expected subpackage paths that exist on disk, in the order of the
    recipe; looking for them leaves the file system as it was and logs,
    in the same order, one warning for each path that is missing, which
    names the path and the error of the lookup. *)
Theorem sub_files_existing (ext : Extern) (t : task) (packageDir : string)
    (subs : list string) (w : World) :
  let path := λ subName,
    Join ext [packageDir; subName +:+ "-" +:+ Version (Pkg (config t)) +:+ "-r"
                            +:+ pretty (Epoch (Pkg (config t))) +:+ ".apk"] in
  let warning := λ p,
    match x_Stat ext p (fs w) with
    | Some e => Some (EvLog Warn ("Skipping subpackage " +:+ p
                                    +:+ " (was not built): " +:+ Error e))
    | None => None
    end in
  (sub_files ext t packageDir subs w).1
    = List.filter (λ p, bool_decide (x_Stat ext p (fs w) = None)) (path <$> subs) ∧
  fs (sub_files ext t packageDir subs w).2 = fs w ∧
  trace (sub_files ext t packageDir subs w).2 = trace w ++ omap warning (path <$> subs).
Proof.
  intros path warning.
  assert (G : ∀ w1, fs w1 = fs w →
    (sub_files ext t packageDir subs w1).1
      = List.filter (λ p, bool_decide (x_Stat ext p (fs w) = None)) (path <$> subs) ∧
    fs (sub_files ext t packageDir subs w1).2 = fs w ∧
    trace (sub_files ext t packageDir subs w1).2
      = trace w1 ++ omap warning (path <$> subs)); [|by apply G].
  induction subs as [|a rest IH]; intros w1 Hfs; cbn [sub_files].
  - cbn. split_and!; [done..|]. by rewrite app_nil_r.
  - unfold ask, logf, emit, mbind, M_bind, mret, M_ret.
    cbn [fmap list_fmap List.filter omap list_omap]. fold (path a).
    unfold warning at 1. rewrite Hfs.
    destruct (x_Stat ext (path a) (fs w)) as [e|] eqn:Hst.
    + rewrite bool_decide_eq_false_2 by done.
      match goal with |- context [sub_files ext t packageDir rest ?w2] =>
        destruct (IH w2 Hfs) as (E1 & E2 & E3) end.
      split_and!; [done..|]. rewrite E3. cbn [trace]. by rewrite <- app_assoc.
    + rewrite bool_decide_eq_true_2 by done.
      destruct (IH w1 Hfs) as (E1 & E2 & E3).
      destruct (sub_files ext t packageDir rest w1) as [more w2]. cbn [fst snd] in *.
      split_and!; [by rewrite E1 | done | done].
Qed.

(** ** Outcomes are final *)

(** Once a task is marked done, nothing that happens later clears the mark
    or changes its error or its dependencies: what a dependent reads after
    wait is what the aggregator reads when it receives the task. *)
Theorem task_outcome_is_final (ext : Extern) (cfg : global)
    (tasks0 : gmap string task) (todos0 fs0 : gset string) (ls : list label)
    (s s' : State) (n : string) (t : task) :
  ranges_all ext → closed_graph tasks0 → fresh_tasks tasks0 →
  reachable ext cfg (init ext tasks0 todos0 fs0) s →
  tasks s !! n = Some t → done t = true →
  run ext cfg ls s = Some s' →
  ∃ t', tasks s' !! n = Some t' ∧ done t' = true ∧ err t' = err t ∧ deps t' = deps t.
Proof.
  intros Hranges Hg Hf. revert s t.
  induction ls as [|l ls IH]; intros s t Hr Ht Hd Hrun; cbn in Hrun.
  - simplify_eq. eauto.
  - apply bind_Some in Hrun as (s1 & Hstep & Hrun).
    pose proof (Inv_reachable ext cfg todos0 Hranges tasks0 fs0 s Hg Hf Hr) as HI.
    destruct (step_stable ext cfg todos0 _ _ _ HI Hstep _ _ Ht)
      as (t1 & Ht1 & Hdeps & _ & Hdone & Herr).
    assert (Hfin : ∃ p, procs s !! n = Some p ∧ finishing p = true).
    { apply (inv_done _ _ _ HI _ _ Ht) in Hd as (p & Hp & Hl).
      exists p. split; [done|]. by destruct p. }
    destruct (IH s1 t1) as (t' & Ht' & Hd' & He' & Hdeps'); [|done|auto|done|].
    { by eapply reach_step. }
    exists t'. split_and!; [done|done|rewrite He'; auto|congruence].
Qed.

Lemma task_outcome_is_final_witness :
  ∃ s s' t t',
    run (ext_ok fetch_none ["a.yaml"]) (cfg_ex 2 ["x86_64"] ∅)
        ([LMain; LMain] ++ whole "a" 0)
        (init (ext_ok fetch_none ["a.yaml"]) (tasks_ex [("a", [])]) {["a"]} ∅) = Some s ∧
    run (ext_ok fetch_none ["a.yaml"]) (cfg_ex 2 ["x86_64"] ∅) [LMain; LMain] s = Some s' ∧
    tasks s !! "a" = Some t ∧ done t = true ∧
    tasks s' !! "a" = Some t' ∧ done t' = true ∧ err t' = err t ∧ deps t' = deps t.
Proof.
  destruct (run (ext_ok fetch_none ["a.yaml"]) (cfg_ex 2 ["x86_64"] ∅)
              ([LMain; LMain] ++ whole "a" 0)
              (init (ext_ok fetch_none ["a.yaml"]) (tasks_ex [("a", [])]) {["a"]} ∅))
    as [s|] eqn:Hrun; [|by vm_compute in Hrun].
  pose proof (run_reachable _ _ _ _ _ Hrun) as Hreach.
  destruct (run (ext_ok fetch_none ["a.yaml"]) (cfg_ex 2 ["x86_64"] ∅) [LMain; LMain] s)
    as [s'|] eqn:Hrun2.
  2: { clear Hreach. vm_compute in Hrun. injection Hrun as <-. by vm_compute in Hrun2. }
  assert (Hdone : ∃ t, tasks s !! "a" = Some t ∧ done t = true).
  { clear Hreach Hrun2. vm_compute in Hrun. injection Hrun as <-.
    match goal with |- ∃ t, ?m !! "a" = Some t ∧ _ =>
      destruct (m !! "a") as [t|] eqn:Ht; [|by vm_compute in Ht] end.
    exists t. split; [done|]. vm_compute in Ht. by injection Ht as <-. }
  destruct Hdone as (t & Ht & Hd).
  destruct (task_outcome_is_final (ext_ok fetch_none ["a.yaml"]) (cfg_ex 2 ["x86_64"] ∅)
              (tasks_ex [("a", [])]) {["a"]} ∅ [LMain; LMain] s s' "a" t
              (ranges_all_ext_ok _ _)
              (proj1 (table_ok_graph (tasks_ex [("a", [])]) eq_refl))
              (proj2 (table_ok_graph (tasks_ex [("a", [])]) eq_refl))
              Hreach Ht Hd Hrun2) as (t' & Ht' & Hd' & He' & Hdeps').
  exists s, s', t, t'. split_and!; done.
Defined.
